(** * Atomic primitives (riscv64/atomic.h) and the SHA-1 digest wrapper (sha.c)

    A shallow embedding of the two leaf components of the repository:
    - [Atomic]: the header [pkgs/kernels/canneal/src/atomic/riscv64/atomic.h],
      its macro-generated function families, its hand-written functions and
      its table of object-like alias macros;
    - [Digest]: [pkgs/netapps/netdedup/src/server/sha.c].

    Machine integers are [Z] with the wrap-around written out; memory is a
    finite map from locations to cells; code that reads or writes memory is
    written in a small state-and-failure monad. *)

From Stdlib Require Import ZArith Lia List.
From stdpp Require Import base gmap strings list.

Local Open Scope Z_scope.

Module Atomic.

(** ** Types of the header *)

(** The [TYPE] macro argument: the suffix token of a function family. *)
Inductive TYPE := char | short | int | long.

(** The C types the header mentions: the [u_]-typedefs of lines 26-29 and the
    [<stdint.h>] types used as [C_TYPE]. *)
Inductive ctype :=
  | u_char | u_short | u_int | u_long
  | uint8_t | uint16_t | uint32_t | uint64_t.

(** Width in bits under the LP64 model the header assumes (line 73). *)
Definition bits (T : ctype) : Z :=
  match T with
  | u_char | uint8_t => 8
  | u_short | uint16_t => 16
  | u_int | uint32_t => 32
  | u_long | uint64_t => 64
  end.

(** [u_##TYPE]. *)
Definition u_ (T : TYPE) : ctype :=
  match T with char => u_char | short => u_short | int => u_int | long => u_long end.

(** Conversion to an unsigned type: reduction modulo [2 ^ bits]. *)
Definition cast (T : ctype) (z : Z) : Z := z mod 2 ^ bits T.

(** A value of type [T]. *)
Definition in_range (T : ctype) (z : Z) : Prop := 0 <= z < 2 ^ bits T.

(** Whether [z] is a value of type [int] (two's complement, 32 bits). *)
Definition int_range (z : Z) : bool := (- 2 ^ 31 <=? z) && (z <? 2 ^ 31).

(** Unary minus on an [int] operand.  The operation is carried out in [int]:
    when the result is not a value of [int], which among the values of [int]
    happens for the operand [-2^31] alone, the behaviour is undefined and
    there is no result. *)
Definition c_neg_int (v : Z) : option Z :=
  if int_range (- v) then Some (- v) else None.

(** [~v] for an operand [v] of type [u_##TYPE].  The operand undergoes the
    integer promotions first: [u_char] and [u_short] become [int], whose
    complement is [-v-1]; [u_int] and [u_long] keep their type. *)
Definition c_not (T : TYPE) (v : Z) : Z :=
  match T with
  | char | short => Z.lnot v
  | int => cast u_int (Z.lnot v)
  | long => cast u_long (Z.lnot v)
  end.

(** ** Memory *)

(** A memory cell: an object of integer type, possibly uninitialised. *)
Inductive val := Vundef | Vint (z : Z).

(** Memory maps locations (addresses of objects) to cells. *)
Abbreviation mem := (gmap Z val).

(** Computations over memory that may fault (invalid pointer, read of an
    uninitialised object). *)
Definition M (A : Type) : Type := mem -> option (A * mem).

Definition ret {A} (a : A) : M A := fun m => Some (a, m).

Definition bind {A B} (c : M A) (k : A -> M B) : M B :=
  fun m => match c m with
           | Some (a, m') => k a m'
           | None => None
           end.

Definition fault {A} : M A := fun _ => None.

Declare Scope mem_scope.
Delimit Scope mem_scope with mem.
Notation "'let*' x ':=' c 'in' k" := (bind c (fun x => k))
  (at level 10, x name, c at level 100, k at level 200) : mem_scope.
Notation "c ';;' k" := (bind c (fun _ => k))
  (at level 100, k at level 200, right associativity) : mem_scope.
Local Open Scope mem_scope.

Definition load (p : Z) : M Z :=
  fun m => match m !! p with
           | Some (Vint x) => Some (x, m)
           | _ => None
           end.

Definition store (p : Z) (x : Z) : M unit :=
  fun m => match m !! p with
           | Some _ => Some (tt, <[p := Vint x]> m)
           | None => None
           end.

(** An automatic variable whose address is taken: a fresh location for the
    duration of [body]. *)
Definition alloca (init : val) : M Z :=
  fun m => let l := fresh (dom m) in Some (l, <[l := init]> m).

Definition free (l : Z) : M unit := fun m => Some (tt, delete l m).

Definition with_local {A} (init : val) (body : Z -> M A) : M A :=
  let* l := alloca init in
  let* r := body l in
  free l ;;
  ret r.

(** ** GCC's [__atomic] built-ins

    Each built-in is one indivisible transition of the memory.  In this
    interleaving model every access is sequentially consistent, so the memory
    order arguments are carried along but do not change the transition. *)

Inductive memorder :=
  | __ATOMIC_RELAXED | __ATOMIC_ACQUIRE | __ATOMIC_RELEASE | __ATOMIC_SEQ_CST.

(** [__atomic_fetch_OP (ptr, val, memorder)]:
    [{ tmp = *ptr; *ptr = tmp OP val; return tmp; }] at the pointee type. *)
Definition atomic_fetch_op (op : Z -> Z -> Z) (T : ctype) (ptr val : Z) (mo : memorder) : M Z :=
  let* tmp := load ptr in
  store ptr (cast T (op tmp val)) ;;
  ret tmp.

Definition __atomic_fetch_or := atomic_fetch_op Z.lor.
Definition __atomic_fetch_and := atomic_fetch_op Z.land.
Definition __atomic_fetch_add := atomic_fetch_op Z.add.
Definition __atomic_fetch_sub := atomic_fetch_op Z.sub.

(** [__atomic_exchange_n (ptr, val, memorder)]. *)
Definition __atomic_exchange_n (T : ctype) (ptr val : Z) (mo : memorder) : M Z :=
  let* tmp := load ptr in
  store ptr val ;;
  ret tmp.

(** [__atomic_compare_exchange_n (ptr, expected, desired, weak, success, failure)]:
    compares [*ptr] with [*expected]; if equal writes [desired] into [*ptr] and
    returns true, otherwise writes the current [*ptr] into [*expected] and
    returns false.  [weak] is 0 in every use: no spurious failure. *)
Definition __atomic_compare_exchange_n (T : ctype) (ptr expected desired : Z)
    (weak : bool) (success failure : memorder) : M bool :=
  let* cur := load ptr in
  let* e := load expected in
  if cur =? e then store ptr desired ;; ret true
  else store expected cur ;; ret false.

(** [__atomic_load (ptr, ret, memorder)]: [*ret = *ptr]. *)
Definition __atomic_load (T : ctype) (ptr ret_ : Z) (mo : memorder) : M unit :=
  let* x := load ptr in
  store ret_ x.

(** [__atomic_store (ptr, val, memorder)]: [*ptr = *val]. *)
Definition __atomic_store (T : ctype) (ptr val : Z) (mo : memorder) : M unit :=
  let* x := load val in
  store ptr x.

(** ** The function families *)

(** The two forms of [ADJ_V]. *)
Definition ADJ_v (T : TYPE) (v : Z) : Z := v.
Definition ADJ_not_v (T : TYPE) (v : Z) : Z := c_not T v.

(** [ATOMIC_OP(NAME, TYPE, C_TYPE, BUILTIN_OP, ADJ_V)], lines 44-50. *)
Definition ATOMIC_OP (T : TYPE) (C_TYPE : ctype)
    (BUILTIN_OP : ctype -> Z -> Z -> memorder -> M Z) (ADJ_V : TYPE -> Z -> Z)
    (p v : Z) : M unit :=
  BUILTIN_OP C_TYPE p (cast C_TYPE (ADJ_V T v)) __ATOMIC_SEQ_CST ;;
  ret tt.

Definition atomic_set_char      := ATOMIC_OP char uint8_t __atomic_fetch_or ADJ_v.
Definition atomic_clear_char    := ATOMIC_OP char uint8_t __atomic_fetch_and ADJ_not_v.
Definition atomic_add_char      := ATOMIC_OP char uint8_t __atomic_fetch_add ADJ_v.
Definition atomic_subtract_char := ATOMIC_OP char uint8_t __atomic_fetch_sub ADJ_v.

Definition atomic_set_short      := ATOMIC_OP short uint16_t __atomic_fetch_or ADJ_v.
Definition atomic_clear_short    := ATOMIC_OP short uint16_t __atomic_fetch_and ADJ_not_v.
Definition atomic_add_short      := ATOMIC_OP short uint16_t __atomic_fetch_add ADJ_v.
Definition atomic_subtract_short := ATOMIC_OP short uint16_t __atomic_fetch_sub ADJ_v.

Definition atomic_set_int      := ATOMIC_OP int uint32_t __atomic_fetch_or ADJ_v.
Definition atomic_clear_int    := ATOMIC_OP int uint32_t __atomic_fetch_and ADJ_not_v.
Definition atomic_add_int      := ATOMIC_OP int uint32_t __atomic_fetch_add ADJ_v.
Definition atomic_subtract_int := ATOMIC_OP int uint32_t __atomic_fetch_sub ADJ_v.

Definition atomic_set_long      := ATOMIC_OP long uint64_t __atomic_fetch_or ADJ_v.
Definition atomic_clear_long    := ATOMIC_OP long uint64_t __atomic_fetch_and ADJ_not_v.
Definition atomic_add_long      := ATOMIC_OP long uint64_t __atomic_fetch_add ADJ_v.
Definition atomic_subtract_long := ATOMIC_OP long uint64_t __atomic_fetch_sub ADJ_v.

(** Compare-and-swap, lines 83-97. *)
Definition atomic_cmpset_int (dst exp src : Z) : M Z :=
  with_local (Vint exp) (fun expected =>
    let* r := __atomic_compare_exchange_n u_int dst expected src false
                __ATOMIC_SEQ_CST __ATOMIC_RELAXED in
    ret (Z.b2z r)).

Definition atomic_cmpset_long (dst exp src : Z) : M Z :=
  with_local (Vint exp) (fun expected =>
    let* r := __atomic_compare_exchange_n u_long dst expected src false
                __ATOMIC_SEQ_CST __ATOMIC_RELAXED in
    ret (Z.b2z r)).

(** Fetch-and-add and fetch-and-subtract, lines 103-115. *)
Definition atomic_fetchadd_int (p v : Z) : M Z :=
  __atomic_fetch_add u_int p v __ATOMIC_SEQ_CST.

Definition atomic_fetchsubtract_int (p v : Z) : M Z :=
  match c_neg_int v with
  | Some neg_v => __atomic_fetch_add u_int p (cast u_int neg_v) __ATOMIC_SEQ_CST
  | None => fault
  end.

(** [ATOMIC_LOAD_ACQ(TYPE, C_TYPE)], lines 121-129: the result variable is
    uninitialised until the built-in writes it. *)
Definition ATOMIC_LOAD_ACQ (T : TYPE) (C_TYPE : ctype) (p : Z) : M Z :=
  with_local Vundef (fun res =>
    __atomic_load C_TYPE p res __ATOMIC_ACQUIRE ;;
    load res).

(** [ATOMIC_STORE_REL(TYPE, C_TYPE)], lines 131-137: the built-in is handed
    the address of the parameter [v]. *)
Definition ATOMIC_STORE_REL (T : TYPE) (C_TYPE : ctype) (p v : Z) : M unit :=
  with_local (Vint v) (fun v_addr =>
    __atomic_store C_TYPE p v_addr __ATOMIC_RELEASE).

Definition atomic_load_acq_char  := ATOMIC_LOAD_ACQ char uint8_t.
Definition atomic_load_acq_short := ATOMIC_LOAD_ACQ short uint16_t.
Definition atomic_load_acq_int   := ATOMIC_LOAD_ACQ int uint32_t.
Definition atomic_load_acq_long  := ATOMIC_LOAD_ACQ long uint64_t.

Definition atomic_store_rel_char  := ATOMIC_STORE_REL char uint8_t.
Definition atomic_store_rel_short := ATOMIC_STORE_REL short uint16_t.
Definition atomic_store_rel_int   := ATOMIC_STORE_REL int uint32_t.
Definition atomic_store_rel_long  := ATOMIC_STORE_REL long uint64_t.

(** Read-and-clear, lines 154-165. *)
Definition atomic_readandclear_int (addr : Z) : M Z :=
  __atomic_exchange_n u_int addr 0 __ATOMIC_SEQ_CST.

Definition atomic_readandclear_long (addr : Z) : M Z :=
  __atomic_exchange_n u_long addr 0 __ATOMIC_SEQ_CST.

(** The families indexed by their [TYPE] token: [atomic_set_##TYPE] and so on. *)
Definition atomic_set_ (T : TYPE) : Z -> Z -> M unit :=
  match T with
  | char => atomic_set_char | short => atomic_set_short
  | int => atomic_set_int | long => atomic_set_long
  end.

Definition atomic_clear_ (T : TYPE) : Z -> Z -> M unit :=
  match T with
  | char => atomic_clear_char | short => atomic_clear_short
  | int => atomic_clear_int | long => atomic_clear_long
  end.

Definition atomic_add_ (T : TYPE) : Z -> Z -> M unit :=
  match T with
  | char => atomic_add_char | short => atomic_add_short
  | int => atomic_add_int | long => atomic_add_long
  end.

Definition atomic_subtract_ (T : TYPE) : Z -> Z -> M unit :=
  match T with
  | char => atomic_subtract_char | short => atomic_subtract_short
  | int => atomic_subtract_int | long => atomic_subtract_long
  end.

(** ** The header as a table of names

    What a translation unit sees after including the header: the functions
    it defines, and the object-like macros of lines 171-302 that rename
    further identifiers to them. *)

(** A function definition, by signature. *)
Inductive fundef :=
  | F_void_p_v (f : Z -> Z -> M unit)       (* void f(volatile T *p, T v) *)
  | F_int_dst_exp_src (f : Z -> Z -> Z -> M Z) (* int f(volatile T *dst, T exp, T src) *)
  | F_val_p_v (f : Z -> Z -> M Z)           (* u_int f(volatile u_int *p, T v) *)
  | F_val_p (f : Z -> M Z).                 (* T f(volatile T *p) *)

Definition functions : gmap string fundef :=
  list_to_map [
    ("atomic_set_char", F_void_p_v atomic_set_char);
    ("atomic_clear_char", F_void_p_v atomic_clear_char);
    ("atomic_add_char", F_void_p_v atomic_add_char);
    ("atomic_subtract_char", F_void_p_v atomic_subtract_char);
    ("atomic_set_short", F_void_p_v atomic_set_short);
    ("atomic_clear_short", F_void_p_v atomic_clear_short);
    ("atomic_add_short", F_void_p_v atomic_add_short);
    ("atomic_subtract_short", F_void_p_v atomic_subtract_short);
    ("atomic_set_int", F_void_p_v atomic_set_int);
    ("atomic_clear_int", F_void_p_v atomic_clear_int);
    ("atomic_add_int", F_void_p_v atomic_add_int);
    ("atomic_subtract_int", F_void_p_v atomic_subtract_int);
    ("atomic_set_long", F_void_p_v atomic_set_long);
    ("atomic_clear_long", F_void_p_v atomic_clear_long);
    ("atomic_add_long", F_void_p_v atomic_add_long);
    ("atomic_subtract_long", F_void_p_v atomic_subtract_long);
    ("atomic_cmpset_int", F_int_dst_exp_src atomic_cmpset_int);
    ("atomic_cmpset_long", F_int_dst_exp_src atomic_cmpset_long);
    ("atomic_fetchadd_int", F_val_p_v atomic_fetchadd_int);
    ("atomic_fetchsubtract_int", F_val_p_v atomic_fetchsubtract_int);
    ("atomic_load_acq_char", F_val_p atomic_load_acq_char);
    ("atomic_load_acq_short", F_val_p atomic_load_acq_short);
    ("atomic_load_acq_int", F_val_p atomic_load_acq_int);
    ("atomic_load_acq_long", F_val_p atomic_load_acq_long);
    ("atomic_store_rel_char", F_void_p_v atomic_store_rel_char);
    ("atomic_store_rel_short", F_void_p_v atomic_store_rel_short);
    ("atomic_store_rel_int", F_void_p_v atomic_store_rel_int);
    ("atomic_store_rel_long", F_void_p_v atomic_store_rel_long);
    ("atomic_readandclear_int", F_val_p atomic_readandclear_int);
    ("atomic_readandclear_long", F_val_p atomic_readandclear_long)
  ].

(** The [#define]s of lines 171-302, in source order. *)
Definition macro_list : list (string * string) := [
    ("atomic_set_acq_char", "atomic_set_char");
    ("atomic_set_rel_char", "atomic_set_char");
    ("atomic_clear_acq_char", "atomic_clear_char");
    ("atomic_clear_rel_char", "atomic_clear_char");
    ("atomic_add_acq_char", "atomic_add_char");
    ("atomic_add_rel_char", "atomic_add_char");
    ("atomic_subtract_acq_char", "atomic_subtract_char");
    ("atomic_subtract_rel_char", "atomic_subtract_char");
    ("atomic_set_acq_short", "atomic_set_short");
    ("atomic_set_rel_short", "atomic_set_short");
    ("atomic_clear_acq_short", "atomic_clear_short");
    ("atomic_clear_rel_short", "atomic_clear_short");
    ("atomic_add_acq_short", "atomic_add_short");
    ("atomic_add_rel_short", "atomic_add_short");
    ("atomic_subtract_acq_short", "atomic_subtract_short");
    ("atomic_subtract_rel_short", "atomic_subtract_short");
    ("atomic_set_acq_int", "atomic_set_int");
    ("atomic_set_rel_int", "atomic_set_int");
    ("atomic_clear_acq_int", "atomic_clear_int");
    ("atomic_clear_rel_int", "atomic_clear_int");
    ("atomic_add_acq_int", "atomic_add_int");
    ("atomic_add_rel_int", "atomic_add_int");
    ("atomic_subtract_acq_int", "atomic_subtract_int");
    ("atomic_subtract_rel_int", "atomic_subtract_int");
    ("atomic_cmpset_acq_int", "atomic_cmpset_int");
    ("atomic_cmpset_rel_int", "atomic_cmpset_int");
    ("atomic_set_acq_long", "atomic_set_long");
    ("atomic_set_rel_long", "atomic_set_long");
    ("atomic_clear_acq_long", "atomic_clear_long");
    ("atomic_clear_rel_long", "atomic_clear_long");
    ("atomic_add_acq_long", "atomic_add_long");
    ("atomic_add_rel_long", "atomic_add_long");
    ("atomic_subtract_acq_long", "atomic_subtract_long");
    ("atomic_subtract_rel_long", "atomic_subtract_long");
    ("atomic_cmpset_acq_long", "atomic_cmpset_long");
    ("atomic_cmpset_rel_long", "atomic_cmpset_long");
    ("atomic_set_8", "atomic_set_char");
    ("atomic_set_acq_8", "atomic_set_acq_char");
    ("atomic_set_rel_8", "atomic_set_rel_char");
    ("atomic_clear_8", "atomic_clear_char");
    ("atomic_clear_acq_8", "atomic_clear_acq_char");
    ("atomic_clear_rel_8", "atomic_clear_rel_char");
    ("atomic_add_8", "atomic_add_char");
    ("atomic_add_acq_8", "atomic_add_acq_char");
    ("atomic_add_rel_8", "atomic_add_rel_char");
    ("atomic_subtract_8", "atomic_subtract_char");
    ("atomic_subtract_acq_8", "atomic_subtract_acq_char");
    ("atomic_subtract_rel_8", "atomic_subtract_rel_char");
    ("atomic_load_acq_8", "atomic_load_acq_char");
    ("atomic_store_rel_8", "atomic_store_rel_char");
    ("atomic_set_16", "atomic_set_short");
    ("atomic_set_acq_16", "atomic_set_acq_short");
    ("atomic_set_rel_16", "atomic_set_rel_short");
    ("atomic_clear_16", "atomic_clear_short");
    ("atomic_clear_acq_16", "atomic_clear_acq_short");
    ("atomic_clear_rel_16", "atomic_clear_rel_short");
    ("atomic_add_16", "atomic_add_short");
    ("atomic_add_acq_16", "atomic_add_acq_short");
    ("atomic_add_rel_16", "atomic_add_rel_short");
    ("atomic_subtract_16", "atomic_subtract_short");
    ("atomic_subtract_acq_16", "atomic_subtract_acq_short");
    ("atomic_subtract_rel_16", "atomic_subtract_rel_short");
    ("atomic_load_acq_16", "atomic_load_acq_short");
    ("atomic_store_rel_16", "atomic_store_rel_short");
    ("atomic_set_32", "atomic_set_int");
    ("atomic_set_acq_32", "atomic_set_acq_int");
    ("atomic_set_rel_32", "atomic_set_rel_int");
    ("atomic_clear_32", "atomic_clear_int");
    ("atomic_clear_acq_32", "atomic_clear_acq_int");
    ("atomic_clear_rel_32", "atomic_clear_rel_int");
    ("atomic_add_32", "atomic_add_int");
    ("atomic_add_acq_32", "atomic_add_acq_int");
    ("atomic_add_rel_32", "atomic_add_rel_int");
    ("atomic_subtract_32", "atomic_subtract_int");
    ("atomic_subtract_acq_32", "atomic_subtract_acq_int");
    ("atomic_subtract_rel_32", "atomic_subtract_rel_int");
    ("atomic_load_acq_32", "atomic_load_acq_int");
    ("atomic_store_rel_32", "atomic_store_rel_int");
    ("atomic_cmpset_32", "atomic_cmpset_int");
    ("atomic_cmpset_acq_32", "atomic_cmpset_acq_int");
    ("atomic_cmpset_rel_32", "atomic_cmpset_rel_int");
    ("atomic_readandclear_32", "atomic_readandclear_int");
    ("atomic_fetchadd_32", "atomic_fetchadd_int");
    ("atomic_fetchsubtract_32", "atomic_fetchsubtract_int");
    ("atomic_set_64", "atomic_set_long");
    ("atomic_set_acq_64", "atomic_set_acq_long");
    ("atomic_set_rel_64", "atomic_set_rel_long");
    ("atomic_clear_64", "atomic_clear_long");
    ("atomic_clear_acq_64", "atomic_clear_acq_long");
    ("atomic_clear_rel_64", "atomic_clear_rel_long");
    ("atomic_add_64", "atomic_add_long");
    ("atomic_add_acq_64", "atomic_add_acq_long");
    ("atomic_add_rel_64", "atomic_add_rel_long");
    ("atomic_subtract_64", "atomic_subtract_long");
    ("atomic_subtract_acq_64", "atomic_subtract_acq_long");
    ("atomic_subtract_rel_64", "atomic_subtract_rel_long");
    ("atomic_load_acq_64", "atomic_load_acq_long");
    ("atomic_store_rel_64", "atomic_store_rel_long");
    ("atomic_cmpset_64", "atomic_cmpset_long");
    ("atomic_cmpset_acq_64", "atomic_cmpset_acq_long");
    ("atomic_cmpset_rel_64", "atomic_cmpset_rel_long");
    ("atomic_readandclear_64", "atomic_readandclear_long");
    ("atomic_set_ptr", "atomic_set_long");
    ("atomic_set_acq_ptr", "atomic_set_acq_long");
    ("atomic_set_rel_ptr", "atomic_set_rel_long");
    ("atomic_clear_ptr", "atomic_clear_long");
    ("atomic_clear_acq_ptr", "atomic_clear_acq_long");
    ("atomic_clear_rel_ptr", "atomic_clear_rel_long");
    ("atomic_add_ptr", "atomic_add_long");
    ("atomic_add_acq_ptr", "atomic_add_acq_long");
    ("atomic_add_rel_ptr", "atomic_add_rel_long");
    ("atomic_subtract_ptr", "atomic_subtract_long");
    ("atomic_subtract_acq_ptr", "atomic_subtract_acq_long");
    ("atomic_subtract_rel_ptr", "atomic_subtract_rel_long");
    ("atomic_load_acq_ptr", "atomic_load_acq_long");
    ("atomic_store_rel_ptr", "atomic_store_rel_long");
    ("atomic_cmpset_ptr", "atomic_cmpset_long");
    ("atomic_cmpset_acq_ptr", "atomic_cmpset_acq_long");
    ("atomic_cmpset_rel_ptr", "atomic_cmpset_rel_long");
    ("atomic_readandclear_ptr", "atomic_readandclear_long")
  ].

Definition macros : gmap string string := list_to_map macro_list.

(** Macro replacement: an identifier that names a macro is replaced and the
    result examined again.  No macro of the table mentions itself, so as many
    rounds as there are macros always reach an identifier that is not one. *)
Fixpoint expand (fuel : nat) (name : string) : string :=
  match fuel with
  | O => name
  | S fuel' =>
      match macros !! name with
      | Some replacement => expand fuel' replacement
      | None => name
      end
  end.

Definition preprocess (name : string) : string :=
  expand (length macro_list) name.

(** The function an identifier denotes, if any. *)
Definition entry (name : string) : option fundef :=
  functions !! preprocess name.

Definition defined (name : string) : bool :=
  match entry name with Some _ => true | None => false end.

(** A call [name(args)]: the value returned, if the function has one, and
    the effect on memory. *)
Definition call (name : string) (args : list Z) : M (option Z) :=
  match entry name, args with
  | Some (F_void_p_v f), [p; v] => f p v ;; ret None
  | Some (F_int_dst_exp_src f), [dst; exp; src] =>
      (let* r := f dst exp src in ret (Some r))
  | Some (F_val_p_v f), [p; v] => (let* r := f p v in ret (Some r))
  | Some (F_val_p f), [p] => (let* r := f p in ret (Some r))
  | _, _ => fault
  end.

(** The naming convention: [atomic_<operation>[_acq|_rel]_<type or width>]. *)
Inductive operation :=
  | op_set | op_clear | op_add | op_subtract
  | op_cmpset | op_fetchadd | op_fetchsubtract
  | op_load_acq | op_store_rel | op_readandclear.

Inductive ordering := plain | acq | rel.

Inductive token :=
  | tok_char | tok_short | tok_int | tok_long
  | tok_8 | tok_16 | tok_32 | tok_64 | tok_ptr.

Definition operation_name (o : operation) : string :=
  match o with
  | op_set => "set" | op_clear => "clear" | op_add => "add"
  | op_subtract => "subtract" | op_cmpset => "cmpset"
  | op_fetchadd => "fetchadd" | op_fetchsubtract => "fetchsubtract"
  | op_load_acq => "load_acq" | op_store_rel => "store_rel"
  | op_readandclear => "readandclear"
  end.

Definition ordering_suffix (s : ordering) : string :=
  match s with plain => EmptyString | acq => "_acq" | rel => "_rel" end.

Definition token_name (t : token) : string :=
  match t with
  | tok_char => "char" | tok_short => "short" | tok_int => "int" | tok_long => "long"
  | tok_8 => "8" | tok_16 => "16" | tok_32 => "32" | tok_64 => "64" | tok_ptr => "ptr"
  end.

Definition entry_name (o : operation) (s : ordering) (t : token) : string :=
  "atomic_" +:+ operation_name o +:+ ordering_suffix s +:+ "_" +:+ token_name t.

(** The four widths and their tokens. *)
Inductive width := W8 | W16 | W32 | W64.

Definition width_token (w : width) : token :=
  match w with W8 => tok_8 | W16 => tok_16 | W32 => tok_32 | W64 => tok_64 end.

Definition width_TYPE (w : width) : TYPE :=
  match w with W8 => char | W16 => short | W32 => int | W64 => long end.

Definition width_C_TYPE (w : width) : ctype :=
  match w with W8 => uint8_t | W16 => uint16_t | W32 => uint32_t | W64 => uint64_t end.

(** The type token a width token stands for (lines 215-283). *)
Definition width_type_token (w : width) : token :=
  match w with W8 => tok_char | W16 => tok_short | W32 => tok_int | W64 => tok_long end.

(** The operations that have [_acq] and [_rel] aliases (lines 171-209). *)
Definition has_ordering_aliases (o : operation) : bool :=
  match o with
  | op_set | op_clear | op_add | op_subtract | op_cmpset => true
  | _ => false
  end.

(** The widths at which the header provides an operation: the macro-generated
    families at every width, compare-and-swap and read-and-clear for [int] and
    [long], fetch-and-add and fetch-and-subtract for [int]. *)
Definition provided_at (o : operation) (w : width) : bool :=
  match o with
  | op_set | op_clear | op_add | op_subtract | op_load_acq | op_store_rel => true
  | op_cmpset | op_readandclear =>
      match w with W32 | W64 => true | W8 | W16 => false end
  | op_fetchadd | op_fetchsubtract =>
      match w with W32 => true | W8 | W16 | W64 => false end
  end.

(** The load and store families indexed by their [TYPE] token. *)
Definition atomic_load_acq_ (T : TYPE) : Z -> M Z :=
  match T with
  | char => atomic_load_acq_char | short => atomic_load_acq_short
  | int => atomic_load_acq_int | long => atomic_load_acq_long
  end.

Definition atomic_store_rel_ (T : TYPE) : Z -> Z -> M unit :=
  match T with
  | char => atomic_store_rel_char | short => atomic_store_rel_short
  | int => atomic_store_rel_int | long => atomic_store_rel_long
  end.

(** [*p] is an initialised object holding a value of type [T]. *)
Definition cell_ok (T : ctype) (m : mem) (p : Z) : Prop :=
  exists x : Z, m !! p = Some (Vint x) /\ in_range T x.

(** A run of [atomic_fetchadd_int] calls on one word, in the order in which
    they take effect (whichever threads they come from); the values returned,
    in that order. *)
Fixpoint fetchadd_all (p : Z) (vs : list Z) : M (list Z) :=
  match vs with
  | [] => ret []
  | v :: vs' =>
      let* old := atomic_fetchadd_int p v in
      let* olds := fetchadd_all p vs' in
      ret (old :: olds)
  end.

(** What a run of fetch-and-adds returns when [*p] starts at [x]: the running
    totals modulo [2^32]. *)
Fixpoint running_totals (x : Z) (vs : list Z) : list Z :=
  match vs with
  | [] => []
  | v :: vs' => x :: running_totals ((x + v) mod 2 ^ 32) vs'
  end.

End Atomic.

Module Digest.

(** ** The hashing library

    [sha.c] includes [openssl/sha.h] and calls [SHA1_Init], [SHA1_Update] and
    [SHA1_Final]; their code is not among the sources.  They are modelled
    below as the streaming SHA-1 of FIPS 180-4 in the shape of OpenSSL's
    [md32_common.h]: a context holding the five chaining words, the bit count
    and a 64-byte block buffer. *)

Definition SHA_CBLOCK : nat := 64.
Definition SHA_DIGEST_LENGTH : nat := 20.

(** Modelled from the spec: [SHA_CTX], declared in [openssl/sha.h], is not
    among the sources.  Words are 32-bit values, [data] is the block buffer
    seen as bytes, [num] the number of bytes waiting in it. *)
Record SHA_CTX := mkSHA_CTX {
  h0 : Z; h1 : Z; h2 : Z; h3 : Z; h4 : Z;
  Nl : Z; Nh : Z;
  data : list Z;
  num : nat
}.

Definition w32 (z : Z) : Z := z mod 2 ^ 32.

(** [ROTATE(a, n)] on a 32-bit word. *)
Definition ROTATE (a : Z) (n : Z) : Z :=
  w32 (Z.lor (Z.shiftl a n) (Z.shiftr (w32 a) (32 - n))).

Definition K_00_19 : Z := 0x5a827999.
Definition K_20_39 : Z := 0x6ed9eba1.
Definition K_40_59 : Z := 0x8f1bbcdc.
Definition K_60_79 : Z := 0xca62c1d6.

Definition F_00_19 (b c d : Z) : Z := Z.lxor (Z.land (Z.lxor c d) b) d.
Definition F_20_39 (b c d : Z) : Z := Z.lxor (Z.lxor b c) d.
Definition F_40_59 (b c d : Z) : Z := Z.lor (Z.land b c) (Z.land (Z.lor b c) d).
Definition F_60_79 (b c d : Z) : Z := F_20_39 b c d.

(** [HOST_c2l]: four bytes, most significant first, to a word. *)
Definition HOST_c2l (b0 b1 b2 b3 : Z) : Z :=
  Z.lor (Z.lor (Z.lor (Z.shiftl b0 24) (Z.shiftl b1 16)) (Z.shiftl b2 8)) b3.

(** [HOST_l2c]: a word to four bytes, most significant first. *)
Definition HOST_l2c (l : Z) : list Z :=
  [Z.land (Z.shiftr l 24) 0xff; Z.land (Z.shiftr l 16) 0xff;
   Z.land (Z.shiftr l 8) 0xff; Z.land l 0xff].

(** The sixteen words of a block. *)
Fixpoint block_words (n : nat) (p : list Z) : list Z :=
  match n with
  | O => []
  | S n' =>
      match p with
      | b0 :: b1 :: b2 :: b3 :: p' => HOST_c2l b0 b1 b2 b3 :: block_words n' p'
      | _ => []
      end
  end.

(** The message schedule, most recent word first:
    [W[t] = ROTATE(W[t-3] ^ W[t-8] ^ W[t-14] ^ W[t-16], 1)]. *)
Fixpoint schedule (n : nat) (rw : list Z) : list Z :=
  match n with
  | O => rw
  | S n' =>
      let x := Z.lxor (Z.lxor (Z.lxor (nth 2 rw 0) (nth 7 rw 0)) (nth 13 rw 0)) (nth 15 rw 0) in
      schedule n' (ROTATE x 1 :: rw)
  end.

(** One of the eighty rounds on the working variables [(A, B, C, D, E)]. *)
Definition round (st : Z * Z * Z * Z * Z) (tw : nat * Z) : Z * Z * Z * Z * Z :=
  let '(a, b, c, d, e) := st in
  let '(t, w) := tw in
  let f := if (t <? 20)%nat then F_00_19 b c d + K_00_19
           else if (t <? 40)%nat then F_20_39 b c d + K_20_39
           else if (t <? 60)%nat then F_40_59 b c d + K_40_59
           else F_60_79 b c d + K_60_79 in
  (w32 (ROTATE a 5 + f + e + w), a, ROTATE b 30, c, d).

(** Modelled from the spec: the compression function of the hashing library
    is not among the sources; this is the one of FIPS 180-4, on one 64-byte
    block. *)
Definition sha1_block (h : Z * Z * Z * Z * Z) (p : list Z) : Z * Z * Z * Z * Z :=
  let W := rev (schedule 64 (rev (block_words 16 p))) in
  let '(a0, b0, c0, d0, e0) := h in
  let '(a, b, c, d, e) := fold_left round (combine (seq 0 80) W) h in
  (w32 (a0 + a), w32 (b0 + b), w32 (c0 + c), w32 (d0 + d), w32 (e0 + e)).

(** The [n] consecutive blocks starting at [p]. *)
Fixpoint blocks_at (p : list Z) (n : nat) : list (list Z) :=
  match n with
  | O => []
  | S n' => take SHA_CBLOCK p :: blocks_at (drop SHA_CBLOCK p) n'
  end.

(** [sha1_block_data_order (c, p, n)] compresses them in order. *)
Definition sha1_blocks (h : Z * Z * Z * Z * Z) (p : list Z) (n : nat) : Z * Z * Z * Z * Z :=
  fold_left sha1_block (blocks_at p n) h.

Definition chaining (c : SHA_CTX) : Z * Z * Z * Z * Z :=
  (h0 c, h1 c, h2 c, h3 c, h4 c).

Definition sha1_block_data_order (c : SHA_CTX) (p : list Z) (n : nat) : SHA_CTX :=
  let '(a, b, c', d, e) := sha1_blocks (chaining c) p n in
  mkSHA_CTX a b c' d e (Nl c) (Nh c) (data c) (num c).

(** Writes into the block buffer. *)
Definition memcpy (p : list Z) (off : nat) (src : list Z) : list Z :=
  take off p ++ src ++ drop (off + length src) p.

Definition memset (p : list Z) (off : nat) (b : Z) (n : nat) : list Z :=
  take off p ++ replicate n b ++ drop (off + n) p.

Definition set_data (c : SHA_CTX) (p : list Z) : SHA_CTX :=
  mkSHA_CTX (h0 c) (h1 c) (h2 c) (h3 c) (h4 c) (Nl c) (Nh c) p (num c).

Definition set_num (c : SHA_CTX) (n : nat) : SHA_CTX :=
  mkSHA_CTX (h0 c) (h1 c) (h2 c) (h3 c) (h4 c) (Nl c) (Nh c) (data c) n.

Definition set_count (c : SHA_CTX) (l h : Z) : SHA_CTX :=
  mkSHA_CTX (h0 c) (h1 c) (h2 c) (h3 c) (h4 c) l h (data c) (num c).

(** Modelled from the spec: [SHA1_Init], of the hashing library, is not among
    the sources.  It sets the chaining words to the initial hash value and
    the counters to zero; the block buffer is left as it was. *)
Definition SHA1_Init (c : SHA_CTX) : SHA_CTX :=
  mkSHA_CTX 0x67452301 0xefcdab89 0x98badcfe 0x10325476 0xc3d2e1f0
            0 0 (data c) 0.

(** Modelled from the spec: the body of [SHA1_Update], of the hashing library,
    is not among the sources.  [input] is the [len] bytes found at the data
    pointer.  The bit count is advanced; a partly filled buffer is completed
    and compressed first; whole blocks are compressed straight from the
    input; what remains is kept in the buffer. *)
Definition HASH_UPDATE (c : SHA_CTX) (input : list Z) : SHA_CTX :=
  let len := length input in
  if (len =? 0)%nat then c else
  let l := w32 (Nl c + w32 (Z.shiftl (w32 (Z.of_nat len)) 3)) in
  let c := set_count c l
             (w32 ((if l <? Nl c then w32 (Nh c + 1) else Nh c)
                   + w32 (Z.shiftr (Z.of_nat len) 29))) in
  let n := num c in
  let fill := (SHA_CBLOCK - n)%nat in
  if negb (n =? 0)%nat && negb ((SHA_CBLOCK <=? len)%nat || (SHA_CBLOCK <=? len + n)%nat)
  then
    set_num (set_data c (memcpy (data c) n input)) (n + len)
  else
    let '(c, input) :=
      if negb (n =? 0)%nat then
        let p := memcpy (data c) n (take fill input) in
        let c := sha1_block_data_order (set_data c p) p 1 in
        (set_data (set_num c 0) (memset p 0 0 SHA_CBLOCK), drop fill input)
      else (c, input) in
    let len := length input in
    let n := (len / SHA_CBLOCK)%nat in
    let c := if (0 <? n)%nat then sha1_block_data_order c input n else c in
    let input := drop (n * SHA_CBLOCK) input in
    let len := length input in
    if negb (len =? 0)%nat then set_data (set_num c len) (memcpy (data c) 0 input)
    else c.

(** [HASH_MAKE_STRING]: the chaining words, most significant byte first. *)
Definition HASH_MAKE_STRING (c : SHA_CTX) : list Z :=
  HOST_l2c (h0 c) ++ HOST_l2c (h1 c) ++ HOST_l2c (h2 c) ++ HOST_l2c (h3 c) ++ HOST_l2c (h4 c).

(** Modelled from the spec: the body of [SHA1_Final], of the hashing library,
    is not among the sources.  The buffered bytes are followed by [0x80],
    zeros up to the last eight bytes of a block (an extra block is compressed
    when there is no room), and the 64-bit bit count; the last block is
    compressed, the buffer wiped, and the chaining words written out.
    Returns the digest and the context as it is left. *)
Definition HASH_FINAL (c : SHA_CTX) : list Z * SHA_CTX :=
  let n := num c in
  let p := <[n := 0x80]> (data c) in
  let n := S n in
  let '(c, p, n) :=
    if (SHA_CBLOCK - 8 <? n)%nat then
      let p := memset p n 0 (SHA_CBLOCK - n) in
      (sha1_block_data_order (set_data c p) p 1, p, O)
    else (set_data c p, p, n) in
  let p := memset p n 0 (SHA_CBLOCK - 8 - n) in
  let p := memcpy p (SHA_CBLOCK - 8) (HOST_l2c (Nh c) ++ HOST_l2c (Nl c)) in
  let c := sha1_block_data_order (set_data c p) p 1 in
  let c := set_data (set_num c 0) (memset p 0 0 SHA_CBLOCK) in
  (HASH_MAKE_STRING c, c).

(** ** Memory and the wrapper *)

(** What the wrapper runs in: byte-addressed memory, and the contents of the
    stack where its automatic variable [sha] will live (whatever earlier
    activity left there). *)
Record state := mkstate {
  heap : gmap Z Z;
  stack : SHA_CTX
}.

(** The [n] bytes at address [a]; a fault if one of them is not mapped. *)
Fixpoint read_bytes (m : gmap Z Z) (a : Z) (n : nat) : option (list Z) :=
  match n with
  | O => Some []
  | S n' =>
      match m !! a, read_bytes m (a + 1) n' with
      | Some b, Some bs => Some (b :: bs)
      | _, _ => None
      end
  end.

(** Storing bytes from address [a] on; a fault if an address is not mapped. *)
Fixpoint write_bytes (m : gmap Z Z) (a : Z) (bs : list Z) : option (gmap Z Z) :=
  match bs with
  | [] => Some m
  | b :: bs' =>
      match m !! a with
      | Some _ => write_bytes (<[a := b]> m) (a + 1) bs'
      | None => None
      end
  end.

(** Modelled from the spec: [SHA1_Update (c, data, len)], of the hashing
    library, is not among the sources.  It reads the [len] bytes at [data]
    and feeds them to the context. *)
Definition SHA1_Update (c : SHA_CTX) (m : gmap Z Z) (data_ : Z) (len : nat) : option SHA_CTX :=
  match read_bytes m data_ len with
  | Some input => Some (HASH_UPDATE c input)
  | None => None
  end.

(** Modelled from the spec: [SHA1_Final (md, c)], of the hashing library, is
    not among the sources.  It finishes the hash and stores the 20 bytes of
    the digest at [md]. *)
Definition SHA1_Final (m : gmap Z Z) (md : Z) (c : SHA_CTX) : option (gmap Z Z * SHA_CTX) :=
  let '(bytes, c') := HASH_FINAL c in
  match write_bytes m md bytes with
  | Some m' => Some (m', c')
  | None => None
  end.

(** [SHA1_Digest (data, len, digest)], sha.c lines 5-11.  The automatic
    variable [sha] starts with whatever the stack holds. *)
Definition SHA1_Digest (data_ : Z) (len : nat) (digest : Z) (s : state) : option state :=
  let sha := stack s in
  let sha := SHA1_Init sha in
  match SHA1_Update sha (heap s) data_ len with
  | None => None
  | Some sha =>
      match SHA1_Final (heap s) digest sha with
      | None => None
      | Some (heap', sha) => Some (mkstate heap' sha)
      end
  end.

(** The digest as a function of the message alone: the three library calls
    on a context of zeros. *)
Definition zero_ctx : SHA_CTX :=
  mkSHA_CTX 0 0 0 0 0 0 0 (replicate SHA_CBLOCK 0) 0.

Definition sha1 (msg : list Z) : list Z :=
  fst (HASH_FINAL (HASH_UPDATE (SHA1_Init zero_ctx) msg)).

(** The automatic variable is a whole [SHA_CTX]: its buffer has 64 bytes,
    whatever they are. *)
Definition stack_ok (s : state) : Prop := length (data (stack s)) = SHA_CBLOCK.

(** A sequence of calls, each with its own arguments. *)
Record call := mkcall { call_data : Z; call_len : nat; call_digest : Z }.

Fixpoint run (calls : list call) (s : state) : option state :=
  match calls with
  | [] => Some s
  | c :: calls' =>
      match SHA1_Digest (call_data c) (call_len c) (call_digest c) s with
      | Some s' => run calls' s'
      | None => None
      end
  end.

Definition is_byte (b : Z) : Prop := 0 <= b < 256.

(** The context the three library calls leave behind. *)
Definition final_ctx (msg : list Z) : SHA_CTX :=
  snd (HASH_FINAL (HASH_UPDATE (SHA1_Init zero_ctx) msg)).

(** A memory that holds [bs] from address [a] on, and nothing else. *)
Definition bytes_at (a : Z) (bs : list Z) : gmap Z Z :=
  list_to_map (imap (fun i b => (a + Z.of_nat i, b)) bs).

Definition bytes_of_string (s : string) : list Z :=
  map (fun a => Z.of_nat (Ascii.nat_of_ascii a)) (String.list_ascii_of_string s).

End Digest.

Module AtomicSpec.
Import Atomic.
Local Open Scope mem_scope.

(** *** Running the monad *)

Lemma bind_Some {A B} (c : M A) (k : A -> M B) (m m' : mem) (a : A) :
  c m = Some (a, m') -> bind c k m = k a m'.
Proof. intros H. unfold bind. rewrite H. reflexivity. Qed.

Lemma load_Some (m : mem) (p x : Z) :
  m !! p = Some (Vint x) -> load p m = Some (x, m).
Proof. intros H. unfold load. rewrite H. reflexivity. Qed.

Lemma store_Some (m : mem) (p x : Z) (c : val) :
  m !! p = Some c -> store p x m = Some (tt, <[p := Vint x]> m).
Proof. intros H. unfold store. rewrite H. reflexivity. Qed.

(** A local that was fresh leaves no trace once it is freed. *)
Lemma free_fresh (m : mem) (l : Z) (a b : val) :
  m !! l = None -> delete l (<[l := a]> (<[l := b]> m)) = m.
Proof.
  intros H. rewrite insert_insert_eq, delete_insert_eq. apply delete_id, H.
Qed.

Lemma fresh_unmapped (m : mem) : m !! fresh (dom m) = None.
Proof. apply not_elem_of_dom, is_fresh. Qed.

Lemma fresh_neq (m : mem) (p : Z) (c : val) : m !! p = Some c -> p <> fresh (dom m).
Proof.
  intros H E. rewrite E in H. rewrite fresh_unmapped in H. discriminate.
Qed.

(** *** The built-ins *)

Lemma atomic_fetch_op_run (op : Z -> Z -> Z) (T : ctype) (mo : memorder)
    (m : mem) (p x v : Z) :
  m !! p = Some (Vint x) ->
  atomic_fetch_op op T p v mo m = Some (x, <[p := Vint (cast T (op x v))]> m).
Proof.
  intros H. unfold atomic_fetch_op.
  rewrite (bind_Some _ _ _ _ _ (load_Some _ _ _ H)).
  rewrite (bind_Some _ _ _ _ _ (store_Some _ _ _ _ H)).
  reflexivity.
Qed.

Lemma atomic_exchange_n_run (T : ctype) (mo : memorder) (m : mem) (p x v : Z) :
  m !! p = Some (Vint x) ->
  __atomic_exchange_n T p v mo m = Some (x, <[p := Vint v]> m).
Proof.
  intros H. unfold __atomic_exchange_n.
  rewrite (bind_Some _ _ _ _ _ (load_Some _ _ _ H)).
  rewrite (bind_Some _ _ _ _ _ (store_Some _ _ _ _ H)).
  reflexivity.
Qed.

(** The compare-exchange built-in on its own does write through [expected]
    when the comparison fails. *)
Lemma atomic_compare_exchange_n_run (T : ctype) (weak : bool) (s f : memorder)
    (m : mem) (ptr expected x e desired : Z) :
  m !! ptr = Some (Vint x) ->
  m !! expected = Some (Vint e) ->
  __atomic_compare_exchange_n T ptr expected desired weak s f m =
    if x =? e then Some (true, <[ptr := Vint desired]> m)
    else Some (false, <[expected := Vint x]> m).
Proof.
  intros Hp He. unfold __atomic_compare_exchange_n.
  rewrite (bind_Some _ _ _ _ _ (load_Some _ _ _ Hp)).
  rewrite (bind_Some _ _ _ _ _ (load_Some _ _ _ He)).
  destruct (x =? e).
  - rewrite (bind_Some _ _ _ _ _ (store_Some _ _ _ _ Hp)). reflexivity.
  - rewrite (bind_Some _ _ _ _ _ (store_Some _ _ _ _ He)). reflexivity.
Qed.

(** *** Compare-and-swap *)

(** The common body of [atomic_cmpset_int] and [atomic_cmpset_long]. *)
Lemma cmpset_body_run (T : ctype) (m : mem) (dst x exp src : Z) :
  m !! dst = Some (Vint x) ->
  with_local (Vint exp) (fun expected =>
    let* r := __atomic_compare_exchange_n T dst expected src false
                __ATOMIC_SEQ_CST __ATOMIC_RELAXED in
    ret (Z.b2z r)) m
  = Some (if x =? exp then (1, <[dst := Vint src]> m) else (0, m)).
Proof.
  intros H. unfold with_local, alloca.
  pose proof (fresh_unmapped m) as Hl.
  pose proof (fresh_neq m dst _ H) as Hne.
  unfold bind at 1. unfold bind at 1. unfold bind at 1.
  revert Hl Hne. generalize (fresh (dom m)). intros l Hl Hne.
  rewrite (atomic_compare_exchange_n_run _ _ _ _ _ dst l x exp src).
  2: { rewrite lookup_insert_ne by congruence. exact H. }
  2: { apply lookup_insert_eq. }
  destruct (x =? exp); unfold ret, bind, free; simpl.
  - rewrite insert_insert_ne by congruence.
    rewrite delete_insert_eq.
    rewrite delete_id; [reflexivity|].
    rewrite lookup_insert_ne by congruence. exact Hl.
  - rewrite free_fresh by exact Hl. reflexivity.
Qed.

(** C1. Compare-and-swap ([atomic_cmpset_int], [atomic_cmpset_long]): with
    [x] the value of [*dst] when the call is made, the call returns non-zero
    exactly when [x = exp]; in that case [*dst] becomes [src] and nothing else
    changes; otherwise memory is left as it was, [*dst] still holding [x]. *)
Theorem cmpset_swaps_iff_expected (m : mem) (dst x exp src : Z) :
  m !! dst = Some (Vint x) ->
  forall f, f = atomic_cmpset_int \/ f = atomic_cmpset_long ->
  exists (r : Z) (m' : mem),
    f dst exp src m = Some (r, m') /\
    (r <> 0 <-> x = exp) /\
    (x = exp -> r = 1 /\ m' = <[dst := Vint src]> m) /\
    (x <> exp -> r = 0 /\ m' = m) /\
    (r = 0 -> m' = m /\ m' !! dst = Some (Vint x)).
Proof.
  intros H f Hf.
  assert (Hrun : f dst exp src m =
                 Some (if x =? exp then (1, <[dst := Vint src]> m) else (0, m))).
  { destruct Hf as [-> | ->]; apply cmpset_body_run, H. }
  destruct (Z.eqb_spec x exp) as [E | E].
  - exists 1, (<[dst := Vint src]> m). repeat split; auto; try lia; try discriminate.
  - exists 0, m. repeat split; auto; try lia; tauto.
Qed.

Lemma cmpset_swaps_iff_expected_witness :
  exists (r : Z) (m' : mem),
    atomic_cmpset_int 8 5 7 {[ 8 := Vint 5 ]} = Some (r, m') /\
    (r <> 0 <-> 5 = 5) /\
    (5 = 5 -> r = 1 /\ m' = <[8 := Vint 7]> {[ 8 := Vint 5 ]}) /\
    (5 <> 5 -> r = 0 /\ m' = {[ 8 := Vint 5 ]}) /\
    (r = 0 -> m' = {[ 8 := Vint 5 ]} /\ m' !! 8 = Some (Vint 5)).
Proof.
  apply (cmpset_swaps_iff_expected {[ 8 := Vint 5 ]} 8 5 5 7).
  - reflexivity.
  - left. reflexivity.
Defined.

(** C9. Compare-and-swap leaves the caller's copy of the expected value alone:
    an object [e] of the caller that holds [exp] (any object other than
    [*dst]) still holds [exp] after [atomic_cmpset_int] or
    [atomic_cmpset_long], whether the swap took place or not, and so does
    every other object; the set of live objects is the same, the local copy
    being gone.  The built-in itself, handed [e] directly, would overwrite it
    when the comparison fails. *)
Theorem cmpset_preserves_expected (m : mem) (dst e x exp src : Z) :
  m !! dst = Some (Vint x) ->
  m !! e = Some (Vint exp) ->
  e <> dst ->
  (forall f, f = atomic_cmpset_int \/ f = atomic_cmpset_long ->
     exists (r : Z) (m' : mem),
       f dst exp src m = Some (r, m') /\
       m' !! e = Some (Vint exp) /\
       (forall l, l <> dst -> m' !! l = m !! l) /\
       dom m' = dom m) /\
  (x <> exp ->
     __atomic_compare_exchange_n u_int dst e src false
       __ATOMIC_SEQ_CST __ATOMIC_RELAXED m = Some (false, <[e := Vint x]> m)).
Proof.
  intros H He Hne. split.
  - intros f Hf.
    assert (Hrun : f dst exp src m =
                   Some (if x =? exp then (1, <[dst := Vint src]> m) else (0, m))).
    { destruct Hf as [-> | ->]; apply cmpset_body_run, H. }
    destruct (x =? exp).
    + exists 1, (<[dst := Vint src]> m). split; [exact Hrun|]. split; [|split].
      * rewrite lookup_insert_ne by congruence. exact He.
      * intros l Hl. apply lookup_insert_ne. congruence.
      * rewrite dom_insert_L.
        apply subseteq_union_1_L, singleton_subseteq_l, elem_of_dom. eauto.
    + exists 0, m. auto.
  - intros Hx.
    rewrite (atomic_compare_exchange_n_run _ _ _ _ m dst e x exp src H He).
    destruct (Z.eqb_spec x exp); [contradiction | reflexivity].
Qed.

Lemma cmpset_preserves_expected_witness :
  (forall f, f = atomic_cmpset_int \/ f = atomic_cmpset_long ->
     exists (r : Z) (m' : mem),
       f 8 5 7 {[ 8 := Vint 6; 16 := Vint 5 ]} = Some (r, m') /\
       m' !! 16 = Some (Vint 5) /\
       (forall l, l <> 8 -> m' !! l = ({[ 8 := Vint 6; 16 := Vint 5 ]} : mem) !! l) /\
       dom m' = dom ({[ 8 := Vint 6; 16 := Vint 5 ]} : mem)) /\
  (6 <> 5 ->
     __atomic_compare_exchange_n u_int 8 16 7 false
       __ATOMIC_SEQ_CST __ATOMIC_RELAXED {[ 8 := Vint 6; 16 := Vint 5 ]}
     = Some (false, <[16 := Vint 6]> {[ 8 := Vint 6; 16 := Vint 5 ]})).
Proof.
  apply (cmpset_preserves_expected {[ 8 := Vint 6; 16 := Vint 5 ]} 8 16 6 5 7).
  - reflexivity.
  - reflexivity.
  - lia.
Defined.

(** *** Fetch-and-add, fetch-and-subtract, read-and-clear *)

(** C3. [atomic_fetchadd_int] returns the value [x] that [*p] held and
    leaves [(x + v) mod 2^32] in [*p]; nothing else changes. *)
Theorem fetchadd_int_returns_old (m : mem) (p x v : Z) :
  m !! p = Some (Vint x) ->
  atomic_fetchadd_int p v m = Some (x, <[p := Vint ((x + v) mod 2 ^ 32)]> m).
Proof.
  intros H. unfold atomic_fetchadd_int, __atomic_fetch_add.
  rewrite (atomic_fetch_op_run _ _ _ _ _ _ _ H). reflexivity.
Qed.

Lemma fetchadd_int_returns_old_witness :
  atomic_fetchadd_int 8 1 {[ 8 := Vint 4294967295 ]}
  = Some (4294967295, <[8 := Vint ((4294967295 + 1) mod 2 ^ 32)]> {[ 8 := Vint 4294967295 ]}).
Proof.
  apply (fetchadd_int_returns_old {[ 8 := Vint 4294967295 ]} 8 4294967295 1).
  reflexivity.
Defined.

(** Unary minus has a result for every [int] but the most negative. *)
Lemma c_neg_int_exact (v : Z) :
  - 2 ^ 31 < v < 2 ^ 31 -> c_neg_int v = Some (- v).
Proof.
  intros H. unfold c_neg_int, int_range.
  destruct (Z.leb_spec (- 2 ^ 31) (- v)); [|lia].
  destruct (Z.ltb_spec (- v) (2 ^ 31)); [|lia].
  reflexivity.
Qed.

Lemma c_neg_int_min : c_neg_int (- 2 ^ 31) = None.
Proof. reflexivity. Qed.

(** [atomic_fetchsubtract_int] away from the most negative operand. *)
Lemma fetchsubtract_int_in_range (m : mem) (p x v : Z) :
  m !! p = Some (Vint x) ->
  - 2 ^ 31 < v < 2 ^ 31 ->
  atomic_fetchsubtract_int p v m = Some (x, <[p := Vint ((x - v) mod 2 ^ 32)]> m).
Proof.
  intros H Hv. unfold atomic_fetchsubtract_int, __atomic_fetch_add.
  rewrite (c_neg_int_exact v Hv).
  rewrite (atomic_fetch_op_run _ _ _ _ _ _ _ H).
  unfold cast, bits. rewrite Zplus_mod_idemp_r.
  replace (x + - v) with (x - v) by lia. reflexivity.
Qed.

(** C4. [atomic_fetchsubtract_int] at the most negative operand.  For every
    operand [v] with [-2^31 < v < 2^31] the call returns the value [x] that
    [*p] held and leaves [(x - v) mod 2^32] in [*p].  For [v = -2^31] the
    function negates [v] in [int] before converting to [u_int]; that negation
    has no value in [int], so the call has no defined outcome, in any memory
    and for any pointer. *)
Theorem fetchsubtract_int_most_negative (m : mem) (p x v : Z) :
  atomic_fetchsubtract_int p (- 2 ^ 31) m = None /\
  (m !! p = Some (Vint x) ->
   - 2 ^ 31 < v < 2 ^ 31 ->
   atomic_fetchsubtract_int p v m
   = Some (x, <[p := Vint ((x - v) mod 2 ^ 32)]> m)).
Proof.
  split; [reflexivity|]. apply fetchsubtract_int_in_range.
Qed.

(** C5. [atomic_readandclear_int] and [atomic_readandclear_long] return the
    value [x] that [*addr] held, and [*addr] is 0 afterwards; nothing else
    changes. *)
Theorem readandclear_returns_old (m : mem) (addr x : Z) :
  m !! addr = Some (Vint x) ->
  forall f, f = atomic_readandclear_int \/ f = atomic_readandclear_long ->
  exists m' : mem,
    f addr m = Some (x, m') /\
    m' !! addr = Some (Vint 0) /\
    m' = <[addr := Vint 0]> m.
Proof.
  intros H f Hf. exists (<[addr := Vint 0]> m).
  split; [|split; [apply lookup_insert_eq | reflexivity]].
  destruct Hf as [-> | ->]; apply atomic_exchange_n_run, H.
Qed.

Lemma readandclear_returns_old_witness :
  exists m' : mem,
    atomic_readandclear_long 8 {[ 8 := Vint 42 ]} = Some (42, m') /\
    m' !! 8 = Some (Vint 0) /\
    m' = <[8 := Vint 0]> {[ 8 := Vint 42 ]}.
Proof.
  apply (readandclear_returns_old {[ 8 := Vint 42 ]} 8 42).
  - reflexivity.
  - right. reflexivity.
Defined.

(** *** The [ATOMIC_OP] families *)

Lemma bits_pos (T : ctype) : 0 < bits T.
Proof. destruct T; reflexivity. Qed.

(** [x | v] of two values of a type is a value of the type. *)
Lemma cast_lor (T : ctype) (x v : Z) :
  in_range T x -> in_range T v -> cast T (Z.lor x v) = Z.lor x v.
Proof.
  unfold in_range, cast. intros Hx Hv.
  pose proof (bits_pos T) as Hb.
  rewrite <- Z.land_ones by lia.
  rewrite Z.land_lor_distr_l, !Z.land_ones by lia.
  rewrite !Z.mod_small by lia. reflexivity.
Qed.

(** [x & c] is a value of the type as soon as [c] is. *)
Lemma cast_land_cast (T : ctype) (x c : Z) :
  cast T (Z.land x (cast T c)) = Z.land x (cast T c).
Proof.
  unfold cast. pose proof (bits_pos T) as Hb.
  rewrite <- !Z.land_ones by lia.
  rewrite <- !Z.land_assoc, Z.land_diag. reflexivity.
Qed.

(** [(C_TYPE)(~v)]: the complement at the width of the type, whatever the
    promoted type the complement was computed in. *)
Lemma cast_c_not (w : width) (v : Z) :
  cast (width_C_TYPE w) (c_not (width_TYPE w) v) = Z.lnot v mod 2 ^ bits (width_C_TYPE w).
Proof.
  destruct w; unfold c_not, cast; simpl; try reflexivity; apply Zmod_mod.
Qed.

(** At the width of the type, [~v] is the word with exactly the bits of [v]
    cleared: [2^bits - 1 - v]. *)
Lemma lnot_mod (n v : Z) : 0 < n -> 0 <= v < 2 ^ n -> Z.lnot v mod 2 ^ n = 2 ^ n - 1 - v.
Proof.
  intros Hn Hv. unfold Z.lnot.
  replace (Z.pred (- v)) with (2 ^ n - 1 - v + (-1) * 2 ^ n) by lia.
  rewrite Z_mod_plus_full. apply Z.mod_small. lia.
Qed.

(** One instance of the [ATOMIC_OP] macro. *)
Lemma ATOMIC_OP_run (T : TYPE) (C : ctype) (op : Z -> Z -> Z) (ADJ : TYPE -> Z -> Z)
    (m : mem) (p x v : Z) :
  m !! p = Some (Vint x) ->
  ATOMIC_OP T C (atomic_fetch_op op) ADJ p v m
  = Some (tt, <[p := Vint (cast C (op x (cast C (ADJ T v))))]> m).
Proof.
  intros H. unfold ATOMIC_OP.
  rewrite (bind_Some _ _ _ _ _ (atomic_fetch_op_run _ _ _ _ _ _ _ H)).
  reflexivity.
Qed.

(** C2. The sixteen functions generated by [ATOMIC_OP].  At each width, with
    [x] the value of [*p] and [v] the operand (both values of the type):
    [atomic_set] leaves [x | v] in [*p], [atomic_clear] leaves [x & ~v] with
    the complement taken at the width of the type, [atomic_add] leaves
    [(x + v) mod 2^width] and [atomic_subtract] leaves [(x - v) mod 2^width].
    Each returns nothing (its result type is [unit]) and changes nothing but
    [*p]. *)
Theorem atomic_op_effect (w : width) (m : mem) (p x v : Z) :
  m !! p = Some (Vint x) ->
  in_range (width_C_TYPE w) x ->
  in_range (width_C_TYPE w) v ->
  atomic_set_ (width_TYPE w) p v m = Some (tt, <[p := Vint (Z.lor x v)]> m) /\
  atomic_clear_ (width_TYPE w) p v m
    = Some (tt, <[p := Vint (Z.land x (Z.lnot v mod 2 ^ bits (width_C_TYPE w)))]> m) /\
  atomic_add_ (width_TYPE w) p v m
    = Some (tt, <[p := Vint ((x + v) mod 2 ^ bits (width_C_TYPE w))]> m) /\
  atomic_subtract_ (width_TYPE w) p v m
    = Some (tt, <[p := Vint ((x - v) mod 2 ^ bits (width_C_TYPE w))]> m).
Proof.
  intros H Hx Hv.
  assert (Hset : ATOMIC_OP (width_TYPE w) (width_C_TYPE w) __atomic_fetch_or ADJ_v p v m
                 = Some (tt, <[p := Vint (Z.lor x v)]> m)).
  { unfold __atomic_fetch_or. rewrite (ATOMIC_OP_run _ _ _ _ _ _ _ _ H).
    unfold ADJ_v. replace (cast (width_C_TYPE w) v) with v
      by (symmetry; apply Z.mod_small, Hv).
    rewrite cast_lor by assumption. reflexivity. }
  assert (Hclear : ATOMIC_OP (width_TYPE w) (width_C_TYPE w) __atomic_fetch_and ADJ_not_v p v m
                   = Some (tt, <[p := Vint (Z.land x (Z.lnot v mod 2 ^ bits (width_C_TYPE w)))]> m)).
  { unfold __atomic_fetch_and. rewrite (ATOMIC_OP_run _ _ _ _ _ _ _ _ H).
    unfold ADJ_not_v. rewrite cast_land_cast, cast_c_not. reflexivity. }
  assert (Hadd : ATOMIC_OP (width_TYPE w) (width_C_TYPE w) __atomic_fetch_add ADJ_v p v m
                 = Some (tt, <[p := Vint ((x + v) mod 2 ^ bits (width_C_TYPE w))]> m)).
  { unfold __atomic_fetch_add. rewrite (ATOMIC_OP_run _ _ _ _ _ _ _ _ H).
    unfold ADJ_v, cast. rewrite Zplus_mod_idemp_r. reflexivity. }
  assert (Hsub : ATOMIC_OP (width_TYPE w) (width_C_TYPE w) __atomic_fetch_sub ADJ_v p v m
                 = Some (tt, <[p := Vint ((x - v) mod 2 ^ bits (width_C_TYPE w))]> m)).
  { unfold __atomic_fetch_sub. rewrite (ATOMIC_OP_run _ _ _ _ _ _ _ _ H).
    unfold ADJ_v, cast. rewrite Zminus_mod_idemp_r. reflexivity. }
  destruct w; (split; [exact Hset | split; [exact Hclear | split; [exact Hadd | exact Hsub]]]).
Qed.

Lemma atomic_op_effect_witness :
  atomic_set_ char 8 129 {[ 8 := Vint 200 ]}
    = Some (tt, <[8 := Vint (Z.lor 200 129)]> {[ 8 := Vint 200 ]}) /\
  atomic_clear_ char 8 129 {[ 8 := Vint 200 ]}
    = Some (tt, <[8 := Vint (Z.land 200 (Z.lnot 129 mod 2 ^ 8))]> {[ 8 := Vint 200 ]}) /\
  atomic_add_ char 8 129 {[ 8 := Vint 200 ]}
    = Some (tt, <[8 := Vint ((200 + 129) mod 2 ^ 8)]> {[ 8 := Vint 200 ]}) /\
  atomic_subtract_ char 8 129 {[ 8 := Vint 200 ]}
    = Some (tt, <[8 := Vint ((200 - 129) mod 2 ^ 8)]> {[ 8 := Vint 200 ]}).
Proof.
  apply (atomic_op_effect W8 {[ 8 := Vint 200 ]} 8 200 129).
  - reflexivity.
  - unfold in_range. simpl. lia.
  - unfold in_range. simpl. lia.
Defined.

(** The values left in [*p] are again values of the type, and the
    complement at the width of the type is [2^width - 1 - v]. *)
Lemma atomic_op_in_range (w : width) (x v : Z) :
  in_range (width_C_TYPE w) x ->
  in_range (width_C_TYPE w) v ->
  in_range (width_C_TYPE w) (Z.lor x v) /\
  in_range (width_C_TYPE w) (Z.land x (Z.lnot v mod 2 ^ bits (width_C_TYPE w))) /\
  Z.lnot v mod 2 ^ bits (width_C_TYPE w) = 2 ^ bits (width_C_TYPE w) - 1 - v /\
  Z.land x (Z.lnot v mod 2 ^ bits (width_C_TYPE w)) = Z.ldiff x v.
Proof.
  intros Hx Hv. pose proof (bits_pos (width_C_TYPE w)) as Hb.
  split; [|split; [|split]].
  - rewrite <- (cast_lor _ _ _ Hx Hv). unfold in_range, cast.
    apply Z.mod_pos_bound. lia.
  - change (Z.lnot v mod 2 ^ bits (width_C_TYPE w)) with (cast (width_C_TYPE w) (Z.lnot v)).
    rewrite <- cast_land_cast. unfold in_range, cast at 1.
    apply Z.mod_pos_bound. lia.
  - apply lnot_mod; [exact Hb | exact Hv].
  - unfold in_range in Hx.
    rewrite <- Z.land_ones by lia.
    rewrite (Z.land_comm (Z.lnot v)), Z.land_assoc, Z.land_ones by lia.
    rewrite (Z.mod_small x) by lia.
    symmetry. apply Z.ldiff_land.
Qed.

(** *** Load-acquire and store-release *)

(** [atomic_load_acq_##TYPE] returns the value of [*p] and leaves memory as
    it was; the uninitialised result variable is written before it is read. *)
Lemma ATOMIC_LOAD_ACQ_run (T : TYPE) (C : ctype) (m : mem) (p x : Z) :
  m !! p = Some (Vint x) ->
  ATOMIC_LOAD_ACQ T C p m = Some (x, m).
Proof.
  intros H. unfold ATOMIC_LOAD_ACQ, with_local, alloca, __atomic_load.
  pose proof (fresh_unmapped m) as Hl.
  pose proof (fresh_neq m p _ H) as Hne.
  unfold bind at 1. unfold bind at 1. unfold bind at 1. unfold bind at 1.
  revert Hl Hne. generalize (fresh (dom m)). intros l Hl Hne.
  rewrite (load_Some (<[l := Vundef]> m) p x)
    by (rewrite lookup_insert_ne by congruence; exact H).
  rewrite (store_Some (<[l := Vundef]> m) l x Vundef) by apply lookup_insert_eq.
  rewrite (load_Some _ l x) by apply lookup_insert_eq.
  unfold bind, free, ret. rewrite free_fresh by exact Hl. reflexivity.
Qed.

(** [atomic_store_rel_##TYPE] leaves [v] in [*p] and changes nothing else. *)
Lemma ATOMIC_STORE_REL_run (T : TYPE) (C : ctype) (m : mem) (p v : Z) (c : val) :
  m !! p = Some c ->
  ATOMIC_STORE_REL T C p v m = Some (tt, <[p := Vint v]> m).
Proof.
  intros H. unfold ATOMIC_STORE_REL, with_local, alloca, __atomic_store.
  pose proof (fresh_unmapped m) as Hl.
  pose proof (fresh_neq m p _ H) as Hne.
  unfold bind at 1. unfold bind at 1. unfold bind at 1.
  revert Hl Hne. generalize (fresh (dom m)). intros l Hl Hne.
  rewrite (load_Some (<[l := Vint v]> m) l v) by apply lookup_insert_eq.
  rewrite (store_Some (<[l := Vint v]> m) p v c)
    by (rewrite lookup_insert_ne by congruence; exact H).
  unfold bind, free, ret.
  rewrite insert_insert_ne by congruence.
  rewrite delete_insert_eq, delete_id; [reflexivity|].
  rewrite lookup_insert_ne by congruence. exact Hl.
Qed.

(** *** The table of names *)

(** An ordering-suffixed name that is defined expands to what the
    unsuffixed name expands to. *)
Lemma ordering_alias_preprocess (o : operation) (s : ordering) (t : token) :
  defined (entry_name o s t) = true ->
  preprocess (entry_name o s t) = preprocess (entry_name o plain t).
Proof.
  destruct o, s, t; vm_compute; intros H; (reflexivity || discriminate H).
Qed.

Lemma ordering_alias_defined (o : operation) (s : ordering) (t : token) :
  has_ordering_aliases o = true ->
  defined (entry_name o s t) = defined (entry_name o plain t).
Proof.
  destruct o, s, t; vm_compute; intros H; (reflexivity || discriminate H).
Qed.

(** C8. Every [_acq]- or [_rel]-suffixed entry point the header defines, under
    a type name, a width name or [ptr], denotes the very function of the
    unsuffixed name: both expand to the same identifier, so every call returns
    the same value and has the same effect on memory.  The operations with
    such aliases are [set], [clear], [add], [subtract] and [cmpset], and for
    these the suffixed names exist wherever the unsuffixed one does. *)
Theorem ordering_aliases_same_function (o : operation) (s : ordering) (t : token) :
  defined (entry_name o s t) = true ->
  defined (entry_name o plain t) = true /\
  entry (entry_name o s t) = entry (entry_name o plain t) /\
  (forall (args : list Z) (m : mem),
     call (entry_name o s t) args m = call (entry_name o plain t) args m) /\
  (forall s' : ordering,
     has_ordering_aliases o = true -> defined (entry_name o s' t) = true).
Proof.
  intros H.
  pose proof (ordering_alias_preprocess o s t H) as Hpre.
  assert (Hentry : entry (entry_name o s t) = entry (entry_name o plain t)).
  { unfold entry. rewrite Hpre. reflexivity. }
  assert (Hplain : defined (entry_name o plain t) = true).
  { unfold defined in *. rewrite <- Hentry. exact H. }
  split; [exact Hplain|]. split; [exact Hentry|]. split.
  - intros args m. unfold call. rewrite Hentry. reflexivity.
  - intros s' Ho. rewrite (ordering_alias_defined o s' t Ho). exact Hplain.
Qed.

Lemma ordering_aliases_same_function_witness :
  defined (entry_name op_cmpset plain tok_64) = true /\
  entry (entry_name op_cmpset rel tok_64) = entry (entry_name op_cmpset plain tok_64) /\
  (forall (args : list Z) (m : mem),
     call (entry_name op_cmpset rel tok_64) args m
     = call (entry_name op_cmpset plain tok_64) args m) /\
  (forall s' : ordering,
     has_ordering_aliases op_cmpset = true ->
     defined (entry_name op_cmpset s' tok_64) = true).
Proof.
  apply (ordering_aliases_same_function op_cmpset rel tok_64).
  vm_compute. reflexivity.
Defined.

(** C6, as stated, fails: compare-and-swap has no 8-bit entry point (nor a
    16-bit one), and fetch-and-add has none at 64 bits; so it is not the case
    that every operation is defined at all four widths. *)
Lemma not_every_operation_at_every_width :
  defined (entry_name op_cmpset plain (width_token W8)) = false /\
  defined (entry_name op_fetchadd plain (width_token W64)) = false /\
  ~ (forall (o : operation) (w : width),
       defined (entry_name o plain (width_token w)) = true).
Proof.
  split; [vm_compute; reflexivity|]. split; [vm_compute; reflexivity|].
  intros H. specialize (H op_cmpset W8). vm_compute in H. discriminate H.
Qed.

(** C6, amended.  [set], [clear], [add], [subtract], [load_acq] and
    [store_rel] are defined at all four widths, the functions of a family
    being the instances of one macro at the four types; [cmpset] and
    [readandclear] are defined at 32 and 64 bits only, [fetchadd] and
    [fetchsubtract] at 32 bits only.  This holds for the width names
    ([_8] ... [_64]) and for the type names ([_char] ... [_long]) alike. *)
Theorem operations_provided_per_width (o : operation) (w : width) :
  defined (entry_name o plain (width_token w)) = provided_at o w /\
  defined (entry_name o plain (width_type_token w)) = provided_at o w /\
  entry (entry_name o plain (width_token w))
  = match o with
    | op_set => Some (F_void_p_v
        (ATOMIC_OP (width_TYPE w) (width_C_TYPE w) __atomic_fetch_or ADJ_v))
    | op_clear => Some (F_void_p_v
        (ATOMIC_OP (width_TYPE w) (width_C_TYPE w) __atomic_fetch_and ADJ_not_v))
    | op_add => Some (F_void_p_v
        (ATOMIC_OP (width_TYPE w) (width_C_TYPE w) __atomic_fetch_add ADJ_v))
    | op_subtract => Some (F_void_p_v
        (ATOMIC_OP (width_TYPE w) (width_C_TYPE w) __atomic_fetch_sub ADJ_v))
    | op_load_acq => Some (F_val_p (ATOMIC_LOAD_ACQ (width_TYPE w) (width_C_TYPE w)))
    | op_store_rel => Some (F_void_p_v (ATOMIC_STORE_REL (width_TYPE w) (width_C_TYPE w)))
    | op_cmpset =>
        match w with
        | W32 => Some (F_int_dst_exp_src atomic_cmpset_int)
        | W64 => Some (F_int_dst_exp_src atomic_cmpset_long)
        | W8 | W16 => None
        end
    | op_readandclear =>
        match w with
        | W32 => Some (F_val_p atomic_readandclear_int)
        | W64 => Some (F_val_p atomic_readandclear_long)
        | W8 | W16 => None
        end
    | op_fetchadd =>
        match w with W32 => Some (F_val_p_v atomic_fetchadd_int) | _ => None end
    | op_fetchsubtract =>
        match w with W32 => Some (F_val_p_v atomic_fetchsubtract_int) | _ => None end
    end.
Proof.
  split; [destruct o, w; vm_compute; reflexivity|].
  split; [destruct o, w; vm_compute; reflexivity|].
  unfold entry.
  destruct o, w;
    match goal with
    | |- functions !! preprocess ?n = _ =>
        let n' := eval vm_compute in (preprocess n) in
        change (preprocess n) with n'
    end; reflexivity.
Qed.

End AtomicSpec.

Module DigestSpec.
Import Digest.

(** *** The library model against known answers *)

Example sha1_empty :
  sha1 [] = [0xda; 0x39; 0xa3; 0xee; 0x5e; 0x6b; 0x4b; 0x0d; 0x32; 0x55;
             0xbf; 0xef; 0x95; 0x60; 0x18; 0x90; 0xaf; 0xd8; 0x07; 0x09].
Proof. vm_compute. reflexivity. Qed.

Example sha1_abc :
  sha1 (bytes_of_string "abc")
  = [0xa9; 0x99; 0x3e; 0x36; 0x47; 0x06; 0x81; 0x6a; 0xba; 0x3e;
     0x25; 0x71; 0x78; 0x50; 0xc2; 0x6c; 0x9c; 0xd0; 0xd8; 0x9d].
Proof. vm_compute. reflexivity. Qed.

Example sha1_two_blocks :
  sha1 (bytes_of_string "abcdbcdecdefdefgefghfghighijhijkijkljklmklmnlmnomnopnopq")
  = [0x84; 0x98; 0x3e; 0x44; 0x1c; 0x3b; 0xd2; 0x6e; 0xba; 0xae;
     0x4a; 0xa1; 0xf9; 0x51; 0x29; 0xe5; 0xe5; 0x46; 0x70; 0xf1].
Proof. vm_compute. reflexivity. Qed.

Example sha1_one_block :
  sha1 (replicate 64 0x61)
  = [0x00; 0x98; 0xba; 0x82; 0x4b; 0x5c; 0x16; 0x42; 0x7b; 0xd7;
     0xa1; 0x12; 0x2a; 0x5a; 0x44; 0x2a; 0x25; 0xec; 0x64; 0x4d].
Proof. vm_compute. reflexivity. Qed.

Example sha1_55_bytes :
  sha1 (replicate 55 0x61)
  = [0xc1; 0xc8; 0xbb; 0xdc; 0x22; 0x79; 0x6e; 0x28; 0xc0; 0xe1;
     0x51; 0x63; 0xd2; 0x08; 0x99; 0xb6; 0x56; 0x21; 0xd6; 0x5a].
Proof. vm_compute. reflexivity. Qed.

Example sha1_129_bytes :
  sha1 (bytes_of_string
    "The quick brown fox jumps over the lazy dogThe quick brown fox jumps over the lazy dogThe quick brown fox jumps over the lazy dog")
  = [0xd4; 0x2f; 0x85; 0x8a; 0xd8; 0x12; 0xfd; 0x98; 0x6f; 0xd8;
     0xdc; 0x72; 0x16; 0xaf; 0x5f; 0x88; 0xbc; 0xaa; 0x14; 0x63].
Proof. vm_compute. reflexivity. Qed.

(** *** Writes into the block buffer *)

Local Opaque sha1_block.

Lemma take_pad (A R : list Z) (x : Z) :
  take (S (length A)) (A ++ x :: R) = A ++ [x].
Proof.
  rewrite cons_middle, app_assoc.
  apply take_app_length'. rewrite length_app. simpl. lia.
Qed.

Lemma pad_full_gen (A R : list Z) (n : nat) :
  length A = n -> length R = (63 - n)%nat -> (n < 64)%nat ->
  memset (A ++ 0x80 :: R) (S n) 0 (SHA_CBLOCK - S n)
  = A ++ 0x80 :: replicate (63 - n) 0.
Proof.
  intros HA HR Hn. subst n. unfold memset, SHA_CBLOCK.
  rewrite take_pad.
  rewrite drop_ge by (rewrite length_app; cbn [length]; lia).
  rewrite app_nil_r, <- app_assoc.
  replace (64 - S (length A))%nat with (63 - length A)%nat by lia. reflexivity.
Qed.

(** Padding that fills the block: the bytes kept, [0x80], zeros. *)
Lemma pad_full (d : list Z) (n : nat) :
  (n < 64)%nat -> length d = 64%nat ->
  memset (<[n := 0x80]> d) (S n) 0 (SHA_CBLOCK - S n)
  = take n d ++ 0x80 :: replicate (63 - n) 0.
Proof.
  intros Hn Hd. rewrite insert_take_drop by lia.
  apply pad_full_gen; [| |exact Hn].
  - rewrite length_take. lia.
  - rewrite length_drop. lia.
Qed.

Lemma pad_short_gen (A R L : list Z) (n : nat) :
  length A = n -> length R = (63 - n)%nat -> (S n <= 56)%nat -> length L = 8%nat ->
  memcpy (memset (A ++ 0x80 :: R) (S n) 0 (SHA_CBLOCK - 8 - S n)) (SHA_CBLOCK - 8) L
  = (A ++ 0x80 :: replicate (55 - n) 0) ++ L.
Proof.
  intros HA HR Hn HL. subst n. unfold memcpy, memset, SHA_CBLOCK.
  rewrite take_pad.
  change (64 - 8)%nat with 56%nat.
  replace (56 - S (length A))%nat with (55 - length A)%nat by lia.
  rewrite HL.
  rewrite (app_assoc _ (replicate _ _)).
  rewrite take_app_length'.
  2: { rewrite !length_app, length_replicate. cbn [length]. lia. }
  rewrite drop_ge.
  2: { rewrite !length_app, length_replicate, length_drop, length_app.
       cbn [length]. lia. }
  rewrite app_nil_r, <- (app_assoc A). reflexivity.
Qed.

(** Padding that leaves room for the bit count [L]. *)
Lemma pad_short (d L : list Z) (n : nat) :
  (S n <= 56)%nat -> length d = 64%nat -> length L = 8%nat ->
  memcpy (memset (<[n := 0x80]> d) (S n) 0 (SHA_CBLOCK - 8 - S n)) (SHA_CBLOCK - 8) L
  = (take n d ++ 0x80 :: replicate (55 - n) 0) ++ L.
Proof.
  intros Hn Hd HL. rewrite insert_take_drop by lia.
  apply pad_short_gen; [| |exact Hn|exact HL].
  - rewrite length_take. lia.
  - rewrite length_drop. lia.
Qed.

(** The second padding block, when the first one was full. *)
Lemma pad_second (p L : list Z) :
  length p = 64%nat -> length L = 8%nat ->
  memcpy (memset p 0 0 (SHA_CBLOCK - 8 - 0)) (SHA_CBLOCK - 8) L = replicate 56 0 ++ L.
Proof.
  intros Hp HL. unfold memcpy, memset, SHA_CBLOCK.
  change (64 - 8 - 0)%nat with 56%nat. change (64 - 8)%nat with 56%nat.
  rewrite take_0, HL. rewrite app_nil_l.
  rewrite take_app_length' by (rewrite length_replicate; reflexivity).
  rewrite drop_ge.
  2: { rewrite length_app, length_replicate, length_drop. lia. }
  rewrite app_nil_r. reflexivity.
Qed.

Lemma wipe (p : list Z) :
  length p = 64%nat -> memset p 0 0 SHA_CBLOCK = replicate 64 0.
Proof.
  intros Hp. unfold memset, SHA_CBLOCK.
  rewrite take_0, drop_ge by lia. rewrite app_nil_r. reflexivity.
Qed.

Lemma length_pad_full (A : list Z) (n : nat) :
  (n < 64)%nat -> length A = n -> length (A ++ 0x80 :: replicate (63 - n) 0) = 64%nat.
Proof.
  intros Hn HA. rewrite length_app. simpl. rewrite length_replicate. lia.
Qed.

Lemma length_HOST_l2c (l : Z) : length (HOST_l2c l) = 4%nat.
Proof. reflexivity. Qed.

(** Compression touches the chaining words only. *)
Lemma sha1_block_data_order_fields (c : SHA_CTX) (p : list Z) (n : nat) :
  Nl (sha1_block_data_order c p n) = Nl c /\
  Nh (sha1_block_data_order c p n) = Nh c /\
  data (sha1_block_data_order c p n) = data c /\
  num (sha1_block_data_order c p n) = num c.
Proof.
  unfold sha1_block_data_order.
  destruct (sha1_blocks (chaining c) p n) as [[[[a b] c'] d] e]. auto.
Qed.

(** *** The context left on the stack does not reach the digest *)

(** [HASH_FINAL] reads the block buffer only below [num]. *)
Lemma HASH_FINAL_prefix (a b c d e nl nh : Z) (d1 d2 : list Z) (n : nat) :
  (n < 64)%nat -> length d1 = 64%nat -> length d2 = 64%nat ->
  take n d1 = take n d2 ->
  HASH_FINAL (mkSHA_CTX a b c d e nl nh d1 n)
  = HASH_FINAL (mkSHA_CTX a b c d e nl nh d2 n).
Proof.
  intros Hn H1 H2 Ht. unfold HASH_FINAL.
  cbn [num data Nl Nh].
  destruct (SHA_CBLOCK - 8 <? S n)%nat eqn:E.
  - rewrite !pad_full by assumption. rewrite Ht. reflexivity.
  - apply Nat.ltb_ge in E. change (SHA_CBLOCK - 8)%nat with 56%nat in E.
    cbn [set_data num data Nl Nh h0 h1 h2 h3 h4].
    rewrite !pad_short by (assumption || reflexivity).
    rewrite Ht. reflexivity.
Qed.

Lemma chaining_sha1_block_data_order (c : SHA_CTX) (p : list Z) (n : nat) :
  chaining (sha1_block_data_order c p n) = sha1_blocks (chaining c) p n.
Proof.
  unfold sha1_block_data_order.
  destruct (sha1_blocks (chaining c) p n) as [[[[a b] c'] d] e]. reflexivity.
Qed.

Lemma memcpy_0 (d src : list Z) : memcpy d 0 src = src ++ drop (length src) d.
Proof. unfold memcpy. rewrite take_0. reflexivity. Qed.

(** What does not fit into whole blocks is shorter than a block. *)
Lemma length_rest (input : list Z) :
  (length (drop (length input / SHA_CBLOCK * SHA_CBLOCK) input) < 64)%nat.
Proof.
  rewrite length_drop. unfold SHA_CBLOCK.
  pose proof (Nat.div_mod_eq (length input) 64) as Hdm.
  pose proof (Nat.mod_upper_bound (length input) 64) as Hub.
  lia.
Qed.

(** After [SHA1_Init] and one [HASH_UPDATE], everything but the part of the
    block buffer at and above [num] is determined by the input. *)
Lemma HASH_UPDATE_init (g1 g2 : SHA_CTX) (input : list Z) :
  length (data g1) = 64%nat -> length (data g2) = 64%nat ->
  let c1 := HASH_UPDATE (SHA1_Init g1) input in
  let c2 := HASH_UPDATE (SHA1_Init g2) input in
  chaining c1 = chaining c2 /\ Nl c1 = Nl c2 /\ Nh c1 = Nh c2 /\
  num c1 = num c2 /\ (num c1 < 64)%nat /\
  length (data c1) = 64%nat /\ length (data c2) = 64%nat /\
  take (num c1) (data c1) = take (num c1) (data c2).
Proof.
  intros H1 H2. unfold HASH_UPDATE, SHA1_Init.
  destruct (length input =? 0)%nat eqn:E0.
  - cbn. repeat split; auto; lia.
  - cbn [num data Nl Nh h0 h1 h2 h3 h4 set_count set_data set_num Nat.eqb negb andb].
    pose proof (length_rest input) as Hrest. revert Hrest.
    generalize (drop (length input / SHA_CBLOCK * SHA_CBLOCK) input). intros rest Hrest.
    generalize (w32 (0 + w32 (Z.shiftl (w32 (Z.of_nat (length input))) 3))). intros l.
    generalize (w32 ((if l <? 0 then w32 (0 + 1) else 0)
                     + w32 (Z.shiftr (Z.of_nat (length input)) 29))). intros hi.
    generalize (length input / SHA_CBLOCK)%nat. intros n.
    unfold set_count. cbn [num data Nl Nh h0 h1 h2 h3 h4].
    assert (Hch : chaining (sha1_block_data_order
                    (mkSHA_CTX 0x67452301 0xefcdab89 0x98badcfe 0x10325476 0xc3d2e1f0
                               l hi (data g1) 0) input n)
                = chaining (sha1_block_data_order
                    (mkSHA_CTX 0x67452301 0xefcdab89 0x98badcfe 0x10325476 0xc3d2e1f0
                               l hi (data g2) 0) input n)).
    { rewrite !chaining_sha1_block_data_order. reflexivity. }
    destruct (0 <? n)%nat; destruct (length rest =? 0)%nat eqn:Er; cbn [negb];
      unfold set_data, set_num; cbn [num data Nl Nh h0 h1 h2 h3 h4 chaining];
      repeat match goal with
        | |- context [Nl (sha1_block_data_order ?c ?p ?k)] =>
            rewrite (proj1 (sha1_block_data_order_fields c p k))
        | |- context [Nh (sha1_block_data_order ?c ?p ?k)] =>
            rewrite (proj1 (proj2 (sha1_block_data_order_fields c p k)))
        | |- context [data (sha1_block_data_order ?c ?p ?k)] =>
            rewrite (proj1 (proj2 (proj2 (sha1_block_data_order_fields c p k))))
        | |- context [num (sha1_block_data_order ?c ?p ?k)] =>
            rewrite (proj2 (proj2 (proj2 (sha1_block_data_order_fields c p k))))
        end;
      cbn [num data Nl Nh h0 h1 h2 h3 h4 chaining];
      rewrite ?memcpy_0, ?length_app, ?length_drop, ?take_app_length, ?H1, ?H2.
    all: repeat split; try reflexivity; try lia.
    all: unfold chaining in Hch |- *; cbn [h0 h1 h2 h3 h4] in Hch |- *; congruence.
Qed.

(** The digest, and the context left behind, do not depend on what the
    context held before [SHA1_Init]. *)
Lemma digest_of_any_stack (g : SHA_CTX) (input : list Z) :
  length (data g) = 64%nat ->
  HASH_FINAL (HASH_UPDATE (SHA1_Init g) input)
  = HASH_FINAL (HASH_UPDATE (SHA1_Init zero_ctx) input).
Proof.
  intros Hg.
  destruct (HASH_UPDATE_init g zero_ctx input Hg eq_refl)
    as (Hc & Hl & Hh & Hn & Hlt & Hd1 & Hd2 & Ht).
  destruct (HASH_UPDATE (SHA1_Init g) input) as [a b c d e nl nh d1 n].
  destruct (HASH_UPDATE (SHA1_Init zero_ctx) input) as [a' b' c' d' e' nl' nh' d2 n'].
  unfold chaining in Hc. cbn [h0 h1 h2 h3 h4 Nl Nh num data] in *.
  injection Hc as -> -> -> -> ->. subst nl' nh' n'.
  apply HASH_FINAL_prefix; assumption.
Qed.

(** [HASH_FINAL] leaves a wiped buffer. *)
Lemma HASH_FINAL_data (c : SHA_CTX) :
  (num c < 64)%nat -> length (data c) = 64%nat ->
  data (snd (HASH_FINAL c)) = replicate 64 0.
Proof.
  destruct c as [a b c d e nl nh d1 n]. cbn [num data]. intros Hn Hd.
  unfold HASH_FINAL. cbn [num data Nl Nh].
  destruct (SHA_CBLOCK - 8 <? S n)%nat eqn:E.
  - rewrite pad_full by assumption.
    rewrite pad_second.
    + cbn [snd set_data set_num data]. apply wipe. reflexivity.
    + apply length_pad_full; [exact Hn|]. rewrite length_take. lia.
    + reflexivity.
  - apply Nat.ltb_ge in E. change (SHA_CBLOCK - 8)%nat with 56%nat in E.
    cbn [set_data num data Nl Nh h0 h1 h2 h3 h4].
    rewrite pad_short by (assumption || reflexivity).
    cbn [snd set_data set_num data]. apply wipe.
    rewrite !length_app, length_take. cbn [length].
    rewrite length_replicate, !length_HOST_l2c. lia.
Qed.

Lemma length_sha1 (msg : list Z) : length (sha1 msg) = SHA_DIGEST_LENGTH.
Proof.
  unfold sha1, HASH_FINAL.
  destruct (SHA_CBLOCK - 8 <? S (num (HASH_UPDATE (SHA1_Init zero_ctx) msg)))%nat;
    reflexivity.
Qed.

Lemma HOST_l2c_bytes (l : Z) : Forall is_byte (HOST_l2c l).
Proof.
  unfold HOST_l2c, is_byte. change 0xff with (Z.ones 8).
  repeat constructor; rewrite Z.land_ones by lia;
    (apply Z.mod_pos_bound || apply Z.lt_le_incl, Z.mod_pos_bound); lia.
Qed.

Lemma sha1_bytes (msg : list Z) : Forall is_byte (sha1 msg).
Proof.
  unfold sha1, HASH_FINAL.
  destruct (SHA_CBLOCK - 8 <? S (num (HASH_UPDATE (SHA1_Init zero_ctx) msg)))%nat;
    cbn [fst]; unfold HASH_MAKE_STRING;
    repeat (apply Forall_app; split); apply HOST_l2c_bytes.
Qed.

(** *** Memory *)

(** Reading depends on the cells read only, wherever they are. *)
Lemma read_bytes_ext (m1 m2 : gmap Z Z) (n : nat) :
  forall a1 a2 : Z,
  (forall i, (i < n)%nat -> m1 !! (a1 + Z.of_nat i) = m2 !! (a2 + Z.of_nat i)) ->
  read_bytes m1 a1 n = read_bytes m2 a2 n.
Proof.
  induction n as [|n IH]; intros a1 a2 H; simpl; [reflexivity|].
  pose proof (H O ltac:(lia)) as H0. rewrite !Z.add_0_r in H0. rewrite H0.
  rewrite (IH (a1 + 1) (a2 + 1)); [reflexivity|].
  intros i Hi. specialize (H (S i) ltac:(lia)).
  rewrite <- !Z.add_assoc.
  replace (1 + Z.of_nat i) with (Z.of_nat (S i)) by lia. exact H.
Qed.

Lemma read_bytes_mapped (m : gmap Z Z) (n : nat) :
  forall a : Z,
  (forall i, (i < n)%nat -> is_Some (m !! (a + Z.of_nat i))) ->
  is_Some (read_bytes m a n).
Proof.
  induction n as [|n IH]; intros a H; simpl; [eauto|].
  destruct (H O ltac:(lia)) as [b Hb]. rewrite Z.add_0_r in Hb. rewrite Hb.
  destruct (IH (a + 1)) as [bs Hbs].
  - intros i Hi. specialize (H (S i) ltac:(lia)).
    rewrite <- Z.add_assoc.
    replace (1 + Z.of_nat i) with (Z.of_nat (S i)) by lia. exact H.
  - rewrite Hbs. eauto.
Qed.

(** A store leaves the cells outside the stored range alone. *)
Lemma write_bytes_frame (bs : list Z) :
  forall (m m' : gmap Z Z) (a : Z),
  write_bytes m a bs = Some m' ->
  forall k : Z, k < a \/ a + Z.of_nat (length bs) <= k -> m' !! k = m !! k.
Proof.
  induction bs as [|b bs IH]; intros m m' a H k Hk; simpl in H.
  - injection H as <-. reflexivity.
  - destruct (m !! a) eqn:Ea; [|discriminate].
    rewrite (IH _ _ _ H k).
    + apply lookup_insert_ne. simpl length in Hk. lia.
    + simpl length in Hk. lia.
Qed.

(** What was stored is read back. *)
Lemma write_bytes_read (bs : list Z) :
  forall (m m' : gmap Z Z) (a : Z),
  write_bytes m a bs = Some m' -> read_bytes m' a (length bs) = Some bs.
Proof.
  induction bs as [|b bs IH]; intros m m' a H; simpl in H |- *; [reflexivity|].
  destruct (m !! a) eqn:Ea; [|discriminate].
  rewrite (write_bytes_frame _ _ _ _ H a) by lia.
  rewrite lookup_insert_eq. rewrite (IH _ _ _ H). reflexivity.
Qed.

(** A store into a buffer that can be read succeeds. *)
Lemma write_bytes_Some (bs : list Z) :
  forall (m : gmap Z Z) (a : Z) (old : list Z),
  read_bytes m a (length bs) = Some old ->
  exists m' : gmap Z Z, write_bytes m a bs = Some m'.
Proof.
  induction bs as [|b bs IH]; intros m a old H; simpl in H |- *; [eauto|].
  destruct (m !! a) eqn:Ea; [|discriminate].
  destruct (read_bytes m (a + 1) (length bs)) as [old'|] eqn:Er; [|discriminate].
  apply (IH _ _ old').
  rewrite <- Er. apply read_bytes_ext. intros i Hi.
  apply lookup_insert_ne. lia.
Qed.

(** *** The wrapper *)

(** [SHA1_Digest] in terms of the message it reads. *)
Lemma SHA1_Digest_unfold (data_ : Z) (len : nat) (digest : Z) (s : state) :
  stack_ok s ->
  SHA1_Digest data_ len digest s
  = match read_bytes (heap s) data_ len with
    | None => None
    | Some input =>
        match write_bytes (heap s) digest (sha1 input) with
        | None => None
        | Some heap' => Some (mkstate heap' (final_ctx input))
        end
    end.
Proof.
  intros Hs. unfold SHA1_Digest, SHA1_Update, SHA1_Final.
  destruct (read_bytes (heap s) data_ len) as [input|]; [|reflexivity].
  rewrite (digest_of_any_stack (stack s) input Hs).
  unfold sha1, final_ctx.
  destruct (HASH_FINAL (HASH_UPDATE (SHA1_Init zero_ctx) input)) as [md c].
  cbn [fst snd].
  destruct (write_bytes (heap s) digest md); reflexivity.
Qed.

Lemma final_ctx_ok (msg : list Z) : length (data (final_ctx msg)) = SHA_CBLOCK.
Proof.
  unfold final_ctx.
  destruct (HASH_UPDATE_init zero_ctx zero_ctx msg eq_refl eq_refl)
    as (_ & _ & _ & _ & Hlt & Hd & _ & _).
  rewrite HASH_FINAL_data by assumption. reflexivity.
Qed.

(** A call leaves a whole context on the stack. *)
Lemma SHA1_Digest_stack_ok (data_ : Z) (len : nat) (digest : Z) (s s' : state) :
  stack_ok s -> SHA1_Digest data_ len digest s = Some s' -> stack_ok s'.
Proof.
  intros Hs H. rewrite SHA1_Digest_unfold in H by exact Hs.
  destruct (read_bytes (heap s) data_ len) as [input|]; [|discriminate].
  destruct (write_bytes (heap s) digest (sha1 input)); [|discriminate].
  injection H as <-. apply final_ctx_ok.
Qed.

Lemma run_stack_ok (calls : list call) :
  forall s s' : state, stack_ok s -> run calls s = Some s' -> stack_ok s'.
Proof.
  induction calls as [|c calls IH]; intros s s' Hs H; simpl in H.
  - injection H as <-. exact Hs.
  - destruct (SHA1_Digest (call_data c) (call_len c) (call_digest c) s) as [s1|] eqn:E;
      [|discriminate].
    apply (IH s1 s'); [|exact H].
    eapply SHA1_Digest_stack_ok; [exact Hs | exact E].
Qed.

(** One call: given the message at [data_] and a readable 20-byte buffer at
    [digest], the call returns, the buffer holds [sha1] of the message, and
    nothing outside the buffer has changed. *)
Lemma SHA1_Digest_run (data_ : Z) (len : nat) (digest : Z) (s : state)
    (input old : list Z) :
  stack_ok s ->
  read_bytes (heap s) data_ len = Some input ->
  read_bytes (heap s) digest SHA_DIGEST_LENGTH = Some old ->
  exists s' : state,
    SHA1_Digest data_ len digest s = Some s' /\
    read_bytes (heap s') digest SHA_DIGEST_LENGTH = Some (sha1 input) /\
    (forall k : Z, k < digest \/ digest + 20 <= k -> heap s' !! k = heap s !! k).
Proof.
  intros Hs Hin Hout.
  rewrite SHA1_Digest_unfold by exact Hs. rewrite Hin.
  rewrite <- (length_sha1 input) in Hout.
  destruct (write_bytes_Some _ _ _ _ Hout) as [heap' Hw].
  rewrite Hw. exists (mkstate heap' (final_ctx input)).
  split; [reflexivity|]. cbn [heap]. split.
  - rewrite <- (length_sha1 input). apply (write_bytes_read _ _ _ _ Hw).
  - intros k Hk. apply (write_bytes_frame _ _ _ _ Hw).
    rewrite length_sha1. unfold SHA_DIGEST_LENGTH. lia.
Qed.

(** C7. [SHA1_Digest] is a function of the message alone.  Take two calls,
    each made after any sequence of earlier calls, in any memories, with any
    earlier contents of the stack and of the output buffers: if the [len]
    bytes at the two data pointers are the same, both calls return and the two
    output buffers hold the same 20 bytes.  For [len = 0] these are the SHA-1
    digest of the empty message, da39a3ee 5e6b4b0d 3255bfef 95601890
    afd80709. *)
Theorem SHA1_Digest_deterministic
    (prior1 prior2 : list call) (s01 s02 s1 s2 : state)
    (data1 data2 : Z) (len : nat) (digest1 digest2 : Z)
    (input old1 old2 : list Z) :
  stack_ok s01 -> stack_ok s02 ->
  run prior1 s01 = Some s1 -> run prior2 s02 = Some s2 ->
  read_bytes (heap s1) data1 len = Some input ->
  read_bytes (heap s2) data2 len = Some input ->
  read_bytes (heap s1) digest1 SHA_DIGEST_LENGTH = Some old1 ->
  read_bytes (heap s2) digest2 SHA_DIGEST_LENGTH = Some old2 ->
  exists (s1' s2' : state) (md : list Z),
    SHA1_Digest data1 len digest1 s1 = Some s1' /\
    SHA1_Digest data2 len digest2 s2 = Some s2' /\
    read_bytes (heap s1') digest1 SHA_DIGEST_LENGTH = Some md /\
    read_bytes (heap s2') digest2 SHA_DIGEST_LENGTH = Some md /\
    length md = 20%nat /\ Forall is_byte md /\
    (len = 0%nat ->
     md = [0xda; 0x39; 0xa3; 0xee; 0x5e; 0x6b; 0x4b; 0x0d; 0x32; 0x55;
           0xbf; 0xef; 0x95; 0x60; 0x18; 0x90; 0xaf; 0xd8; 0x07; 0x09]).
Proof.
  intros H01 H02 Hr1 Hr2 Hin1 Hin2 Hout1 Hout2.
  pose proof (run_stack_ok _ _ _ H01 Hr1) as Hs1.
  pose proof (run_stack_ok _ _ _ H02 Hr2) as Hs2.
  destruct (SHA1_Digest_run _ _ _ _ _ _ Hs1 Hin1 Hout1) as (s1' & Hd1 & Hmd1 & _).
  destruct (SHA1_Digest_run _ _ _ _ _ _ Hs2 Hin2 Hout2) as (s2' & Hd2 & Hmd2 & _).
  exists s1', s2', (sha1 input).
  repeat split; try assumption.
  - apply length_sha1.
  - apply sha1_bytes.
  - intros ->. simpl in Hin1. injection Hin1 as <-. apply sha1_empty.
Qed.

Lemma SHA1_Digest_deterministic_witness :
  let garbage := mkSHA_CTX 1 2 3 4 5 6 7 (replicate 64 0xaa) 9 in
  let s01 := mkstate (bytes_at 100 (replicate 20 0)) zero_ctx in
  let s02 := mkstate (bytes_at 200 (replicate 20 0xff) ∪ bytes_at 300 [0x61; 0x62; 0x63])
                     garbage in
  let s2 := default s02 (run [mkcall 300 3 200] s02) in
  exists (s1' s2' : state) (md : list Z),
    SHA1_Digest 0 0 100 s01 = Some s1' /\
    SHA1_Digest 12345 0 200 s2 = Some s2' /\
    read_bytes (heap s1') 100 SHA_DIGEST_LENGTH = Some md /\
    read_bytes (heap s2') 200 SHA_DIGEST_LENGTH = Some md /\
    length md = 20%nat /\ Forall is_byte md /\
    (0%nat = 0%nat ->
     md = [0xda; 0x39; 0xa3; 0xee; 0x5e; 0x6b; 0x4b; 0x0d; 0x32; 0x55;
           0xbf; 0xef; 0x95; 0x60; 0x18; 0x90; 0xaf; 0xd8; 0x07; 0x09]).
Proof.
  intros garbage s01 s02 s2.
  apply (SHA1_Digest_deterministic [] [mkcall 300 3 200] s01 s02 s01 s2
           0 12345 0 100 200 [] (replicate 20 0)
           [0xa9; 0x99; 0x3e; 0x36; 0x47; 0x06; 0x81; 0x6a; 0xba; 0x3e;
            0x25; 0x71; 0x78; 0x50; 0xc2; 0x6c; 0x9c; 0xd0; 0xd8; 0x9d]).
  - reflexivity.
  - reflexivity.
  - reflexivity.
  - vm_compute. reflexivity.
  - reflexivity.
  - reflexivity.
  - vm_compute. reflexivity.
  - vm_compute. reflexivity.
Defined.

(** C10. The digest depends on the first [len] bytes of the input buffer
    only.  Take two calls in any two states, with the data at any two
    addresses: if for every [i < len] the byte at [data1 + i] in the one is
    the byte at [data2 + i] in the other, both calls return and the two
    output buffers hold the same 20 bytes.  Nothing is assumed about the
    bytes at [len] and beyond, about the rest of memory or about the
    addresses. *)
Theorem SHA1_Digest_reads_len_bytes
    (s1 s2 : state) (data1 data2 : Z) (len : nat) (digest1 digest2 : Z)
    (old1 old2 : list Z) :
  stack_ok s1 -> stack_ok s2 ->
  (forall i : nat, (i < len)%nat ->
     exists b : Z, heap s1 !! (data1 + Z.of_nat i) = Some b /\
                   heap s2 !! (data2 + Z.of_nat i) = Some b) ->
  read_bytes (heap s1) digest1 SHA_DIGEST_LENGTH = Some old1 ->
  read_bytes (heap s2) digest2 SHA_DIGEST_LENGTH = Some old2 ->
  exists (s1' s2' : state) (md : list Z),
    SHA1_Digest data1 len digest1 s1 = Some s1' /\
    SHA1_Digest data2 len digest2 s2 = Some s2' /\
    read_bytes (heap s1') digest1 SHA_DIGEST_LENGTH = Some md /\
    read_bytes (heap s2') digest2 SHA_DIGEST_LENGTH = Some md /\
    length md = 20%nat.
Proof.
  intros Hs1 Hs2 Hbytes Hout1 Hout2.
  destruct (read_bytes_mapped (heap s1) len data1) as [input Hin1].
  { intros i Hi. destruct (Hbytes i Hi) as (b & Hb & _). eauto. }
  assert (Hin2 : read_bytes (heap s2) data2 len = Some input).
  { rewrite <- Hin1. apply read_bytes_ext. intros i Hi.
    destruct (Hbytes i Hi) as (b & Hb1 & Hb2). congruence. }
  destruct (SHA1_Digest_run _ _ _ _ _ _ Hs1 Hin1 Hout1) as (s1' & Hd1 & Hmd1 & _).
  destruct (SHA1_Digest_run _ _ _ _ _ _ Hs2 Hin2 Hout2) as (s2' & Hd2 & Hmd2 & _).
  exists s1', s2', (sha1 input).
  repeat split; try assumption. apply length_sha1.
Qed.

Lemma SHA1_Digest_reads_len_bytes_witness :
  let garbage := mkSHA_CTX 1 2 3 4 5 6 7 (replicate 64 0xaa) 9 in
  let s1 := mkstate (bytes_at 100 (replicate 20 0)
                     ∪ bytes_at 300 [0x61; 0x62; 0x63; 0x64; 0x65]) zero_ctx in
  let s2 := mkstate (bytes_at 200 (replicate 20 0xff)
                     ∪ bytes_at 500 [0x61; 0x62; 0x63; 0x7a]) garbage in
  exists (s1' s2' : state) (md : list Z),
    SHA1_Digest 300 3 100 s1 = Some s1' /\
    SHA1_Digest 500 3 200 s2 = Some s2' /\
    read_bytes (heap s1') 100 SHA_DIGEST_LENGTH = Some md /\
    read_bytes (heap s2') 200 SHA_DIGEST_LENGTH = Some md /\
    length md = 20%nat.
Proof.
  intros garbage s1 s2.
  apply (SHA1_Digest_reads_len_bytes s1 s2 300 500 3 100 200
           (replicate 20 0) (replicate 20 0xff)).
  - reflexivity.
  - reflexivity.
  - intros i Hi.
    destruct i as [|[|[|i]]]; [exists 0x61 | exists 0x62 | exists 0x63 | lia];
      split; vm_compute; reflexivity.
  - vm_compute. reflexivity.
  - vm_compute. reflexivity.
Defined.

End DigestSpec.

Module AtomicMore.
Import Atomic AtomicSpec.
Local Open Scope mem_scope.

(** *** The families, run *)

Lemma family_unfold (w : width) :
  atomic_set_ (width_TYPE w)
    = ATOMIC_OP (width_TYPE w) (width_C_TYPE w) __atomic_fetch_or ADJ_v /\
  atomic_clear_ (width_TYPE w)
    = ATOMIC_OP (width_TYPE w) (width_C_TYPE w) __atomic_fetch_and ADJ_not_v /\
  atomic_add_ (width_TYPE w)
    = ATOMIC_OP (width_TYPE w) (width_C_TYPE w) __atomic_fetch_add ADJ_v /\
  atomic_subtract_ (width_TYPE w)
    = ATOMIC_OP (width_TYPE w) (width_C_TYPE w) __atomic_fetch_sub ADJ_v /\
  atomic_load_acq_ (width_TYPE w) = ATOMIC_LOAD_ACQ (width_TYPE w) (width_C_TYPE w) /\
  atomic_store_rel_ (width_TYPE w) = ATOMIC_STORE_REL (width_TYPE w) (width_C_TYPE w).
Proof. destruct w; repeat split; reflexivity. Qed.

Lemma land_lnot_mod (n x v : Z) :
  0 < n -> 0 <= x < 2 ^ n -> Z.land x (Z.lnot v mod 2 ^ n) = Z.ldiff x v.
Proof.
  intros Hn Hx. rewrite <- Z.land_ones by lia.
  rewrite (Z.land_comm (Z.lnot v)), Z.land_assoc, Z.land_ones by lia.
  rewrite (Z.mod_small x) by lia. symmetry. apply Z.ldiff_land.
Qed.

Lemma ldiff_in_range (T : ctype) (x v : Z) : in_range T x -> in_range T (Z.ldiff x v).
Proof.
  unfold in_range. intros Hx. pose proof (bits_pos T) as Hb.
  rewrite <- (land_lnot_mod (bits T) x v) by lia.
  change (Z.lnot v mod 2 ^ bits T) with (cast T (Z.lnot v)).
  rewrite <- cast_land_cast. apply Z.mod_pos_bound. lia.
Qed.

Lemma lor_in_range (T : ctype) (x v : Z) :
  in_range T x -> in_range T v -> in_range T (Z.lor x v).
Proof.
  intros Hx Hv. rewrite <- (cast_lor _ _ _ Hx Hv). unfold in_range, cast.
  apply Z.mod_pos_bound. pose proof (bits_pos T). lia.
Qed.

Lemma set_run (w : width) (m : mem) (p x v : Z) :
  m !! p = Some (Vint x) ->
  in_range (width_C_TYPE w) x -> in_range (width_C_TYPE w) v ->
  atomic_set_ (width_TYPE w) p v m = Some (tt, <[p := Vint (Z.lor x v)]> m).
Proof.
  intros H Hx Hv. rewrite (proj1 (family_unfold w)).
  unfold __atomic_fetch_or. rewrite (ATOMIC_OP_run _ _ _ _ _ _ _ _ H).
  unfold ADJ_v. replace (cast (width_C_TYPE w) v) with v
    by (symmetry; apply Z.mod_small, Hv).
  rewrite cast_lor by assumption. reflexivity.
Qed.

Lemma clear_run (w : width) (m : mem) (p x v : Z) :
  m !! p = Some (Vint x) ->
  in_range (width_C_TYPE w) x ->
  atomic_clear_ (width_TYPE w) p v m = Some (tt, <[p := Vint (Z.ldiff x v)]> m).
Proof.
  intros H Hx. rewrite (proj1 (proj2 (family_unfold w))).
  unfold __atomic_fetch_and. rewrite (ATOMIC_OP_run _ _ _ _ _ _ _ _ H).
  unfold ADJ_not_v. rewrite cast_land_cast, cast_c_not.
  rewrite land_lnot_mod; [reflexivity | apply bits_pos | exact Hx].
Qed.

Lemma add_run (w : width) (m : mem) (p x v : Z) :
  m !! p = Some (Vint x) ->
  atomic_add_ (width_TYPE w) p v m
  = Some (tt, <[p := Vint ((x + v) mod 2 ^ bits (width_C_TYPE w))]> m).
Proof.
  intros H. rewrite (proj1 (proj2 (proj2 (family_unfold w)))).
  unfold __atomic_fetch_add. rewrite (ATOMIC_OP_run _ _ _ _ _ _ _ _ H).
  unfold ADJ_v, cast. rewrite Zplus_mod_idemp_r. reflexivity.
Qed.

Lemma subtract_run (w : width) (m : mem) (p x v : Z) :
  m !! p = Some (Vint x) ->
  atomic_subtract_ (width_TYPE w) p v m
  = Some (tt, <[p := Vint ((x - v) mod 2 ^ bits (width_C_TYPE w))]> m).
Proof.
  intros H. rewrite (proj1 (proj2 (proj2 (proj2 (family_unfold w))))).
  unfold __atomic_fetch_sub. rewrite (ATOMIC_OP_run _ _ _ _ _ _ _ _ H).
  unfold ADJ_v, cast. rewrite Zminus_mod_idemp_r. reflexivity.
Qed.

(** Two calls in a row. *)
Lemma seq_run {A B} (c : M A) (k : A -> M B) (m m' : mem) (a : A) (r : option (B * mem)) :
  c m = Some (a, m') -> k a m' = r -> bind c k m = r.
Proof. intros H <-. apply bind_Some, H. Qed.

(** *** Load-acquire and store-release *)

(** X1. [atomic_load_acq_char], [_short], [_int] and [_long] return the value
    held in [*p] and leave memory exactly as it was: the result variable
    whose address is handed to the built-in does not outlive the call. *)
Theorem load_acq_returns_value (w : width) (m : mem) (p x : Z) :
  m !! p = Some (Vint x) ->
  atomic_load_acq_ (width_TYPE w) p m = Some (x, m).
Proof.
  intros H. rewrite (proj1 (proj2 (proj2 (proj2 (proj2 (family_unfold w)))))).
  apply ATOMIC_LOAD_ACQ_run, H.
Qed.

Lemma load_acq_returns_value_witness :
  atomic_load_acq_ short 8 {[ 8 := Vint 513; 16 := Vundef ]}
  = Some (513, {[ 8 := Vint 513; 16 := Vundef ]}).
Proof.
  apply (load_acq_returns_value W16 {[ 8 := Vint 513; 16 := Vundef ]} 8 513).
  reflexivity.
Defined.

(** X2. [atomic_store_rel_char], [_short], [_int] and [_long] leave [v] in
    [*p], whatever [*p] held (an uninitialised object included), and change
    no other object. *)
Theorem store_rel_stores (w : width) (m : mem) (p v : Z) (c : val) :
  m !! p = Some c ->
  atomic_store_rel_ (width_TYPE w) p v m = Some (tt, <[p := Vint v]> m).
Proof.
  intros H. rewrite (proj2 (proj2 (proj2 (proj2 (proj2 (family_unfold w)))))).
  eapply ATOMIC_STORE_REL_run, H.
Qed.

Lemma store_rel_stores_witness :
  atomic_store_rel_ long 16 7 {[ 8 := Vint 513; 16 := Vundef ]}
  = Some (tt, <[16 := Vint 7]> {[ 8 := Vint 513; 16 := Vundef ]}).
Proof.
  apply (store_rel_stores W64 {[ 8 := Vint 513; 16 := Vundef ]} 16 7 Vundef).
  reflexivity.
Defined.

(** X3. A store-release followed by a load-acquire of the same object, at
    the same width, returns the value stored. *)
Theorem store_rel_load_acq_round_trip (w : width) (m : mem) (p v : Z) (c : val) :
  m !! p = Some c ->
  (atomic_store_rel_ (width_TYPE w) p v ;; atomic_load_acq_ (width_TYPE w) p) m
  = Some (v, <[p := Vint v]> m).
Proof.
  intros H.
  apply (seq_run _ _ _ _ _ _ (store_rel_stores w m p v c H)).
  apply load_acq_returns_value, lookup_insert_eq.
Qed.

Lemma store_rel_load_acq_round_trip_witness :
  (atomic_store_rel_ char 8 200 ;; atomic_load_acq_ char 8) {[ 8 := Vundef ]}
  = Some (200, <[8 := Vint 200]> {[ 8 := Vundef ]}).
Proof.
  apply (store_rel_load_acq_round_trip W8 {[ 8 := Vundef ]} 8 200 Vundef).
  reflexivity.
Defined.

(** *** How the [ATOMIC_OP] functions compose *)

(** X4. At every width, [atomic_add] followed by [atomic_subtract] of the same
    operand restores [*p], and so does [atomic_subtract] followed by
    [atomic_add], also when the intermediate value wraps around. *)
Theorem add_subtract_round_trip (w : width) (m : mem) (p x v : Z) :
  m !! p = Some (Vint x) ->
  in_range (width_C_TYPE w) x ->
  (atomic_add_ (width_TYPE w) p v ;; atomic_subtract_ (width_TYPE w) p v) m
    = Some (tt, m) /\
  (atomic_subtract_ (width_TYPE w) p v ;; atomic_add_ (width_TYPE w) p v) m
    = Some (tt, m).
Proof.
  intros H Hx. unfold in_range in Hx. split.
  - apply (seq_run _ _ _ _ _ _ (add_run w m p x v H)).
    rewrite (subtract_run w _ p _ v (lookup_insert_eq _ _ _)).
    rewrite insert_insert_eq, Zminus_mod_idemp_l.
    replace (x + v - v) with x by lia.
    rewrite Z.mod_small by exact Hx. rewrite insert_id by exact H. reflexivity.
  - apply (seq_run _ _ _ _ _ _ (subtract_run w m p x v H)).
    rewrite (add_run w _ p _ v (lookup_insert_eq _ _ _)).
    rewrite insert_insert_eq, Zplus_mod_idemp_l.
    replace (x - v + v) with x by lia.
    rewrite Z.mod_small by exact Hx. rewrite insert_id by exact H. reflexivity.
Qed.

Lemma add_subtract_round_trip_witness :
  (atomic_add_ char 8 100 ;; atomic_subtract_ char 8 100) {[ 8 := Vint 200 ]}
    = Some (tt, {[ 8 := Vint 200 ]}) /\
  (atomic_subtract_ char 8 100 ;; atomic_add_ char 8 100) {[ 8 := Vint 200 ]}
    = Some (tt, {[ 8 := Vint 200 ]}).
Proof.
  apply (add_subtract_round_trip W8 {[ 8 := Vint 200 ]} 8 200 100).
  - reflexivity.
  - unfold in_range. simpl. lia.
Defined.

Lemma lor_ldiff_algebra (x v : Z) :
  Z.lor (Z.lor x v) v = Z.lor x v /\
  Z.ldiff (Z.ldiff x v) v = Z.ldiff x v /\
  Z.ldiff (Z.lor x v) v = Z.ldiff x v /\
  Z.lor (Z.ldiff x v) v = Z.lor x v.
Proof.
  repeat split; apply Z.bits_inj'; intros n Hn;
    rewrite ?Z.ldiff_spec, ?Z.lor_spec, ?Z.ldiff_spec, ?Z.lor_spec;
    destruct (Z.testbit x n), (Z.testbit v n); reflexivity.
Qed.

(** X5. With one mask [v], at every width: [atomic_set] twice is
    [atomic_set] once, [atomic_clear] twice is [atomic_clear] once, and of an
    [atomic_set] and an [atomic_clear] in a row the second decides ([set]
    then [clear] is [clear], [clear] then [set] is [set]). *)
Theorem set_clear_last_wins (w : width) (m : mem) (p x v : Z) :
  m !! p = Some (Vint x) ->
  in_range (width_C_TYPE w) x ->
  in_range (width_C_TYPE w) v ->
  let set := atomic_set_ (width_TYPE w) p v in
  let clear := atomic_clear_ (width_TYPE w) p v in
  (set ;; set) m = set m /\
  (clear ;; clear) m = clear m /\
  (set ;; clear) m = clear m /\
  (clear ;; set) m = set m.
Proof.
  intros H Hx Hv set clear. subst set clear.
  destruct (lor_ldiff_algebra x v) as (E1 & E2 & E3 & E4).
  pose proof (lor_in_range _ _ _ Hx Hv) as Hlor.
  pose proof (ldiff_in_range _ _ v Hx) as Hldiff.
  rewrite (set_run w m p x v H Hx Hv), (clear_run w m p x v H Hx).
  repeat split.
  - apply (seq_run _ _ _ _ _ _ (set_run w m p x v H Hx Hv)).
    rewrite (set_run w _ p _ v (lookup_insert_eq _ _ _) Hlor Hv).
    rewrite insert_insert_eq, E1. reflexivity.
  - apply (seq_run _ _ _ _ _ _ (clear_run w m p x v H Hx)).
    rewrite (clear_run w _ p _ v (lookup_insert_eq _ _ _) Hldiff).
    rewrite insert_insert_eq, E2. reflexivity.
  - apply (seq_run _ _ _ _ _ _ (set_run w m p x v H Hx Hv)).
    rewrite (clear_run w _ p _ v (lookup_insert_eq _ _ _) Hlor).
    rewrite insert_insert_eq, E3. reflexivity.
  - apply (seq_run _ _ _ _ _ _ (clear_run w m p x v H Hx)).
    rewrite (set_run w _ p _ v (lookup_insert_eq _ _ _) Hldiff Hv).
    rewrite insert_insert_eq, E4. reflexivity.
Qed.

Lemma set_clear_last_wins_witness :
  let set := atomic_set_ short 8 0x0ff0 in
  let clear := atomic_clear_ short 8 0x0ff0 in
  (set ;; set) {[ 8 := Vint 0xa5a5 ]} = set {[ 8 := Vint 0xa5a5 ]} /\
  (clear ;; clear) {[ 8 := Vint 0xa5a5 ]} = clear {[ 8 := Vint 0xa5a5 ]} /\
  (set ;; clear) {[ 8 := Vint 0xa5a5 ]} = clear {[ 8 := Vint 0xa5a5 ]} /\
  (clear ;; set) {[ 8 := Vint 0xa5a5 ]} = set {[ 8 := Vint 0xa5a5 ]}.
Proof.
  apply (set_clear_last_wins W16 {[ 8 := Vint 0xa5a5 ]} 8 0xa5a5 0x0ff0).
  - reflexivity.
  - unfold in_range. simpl. lia.
  - unfold in_range. simpl. lia.
Defined.

(** X6. The [ATOMIC_OP] functions keep [*p] a value of its type and touch
    nothing but [*p]: if [*p] holds a value of the type and the operand is
    one, then after [atomic_set], [atomic_clear], [atomic_add] or
    [atomic_subtract] at that width [*p] again holds a value of the type and
    every other object is as before. *)
Theorem atomic_op_keeps_cell_ok (w : width) (m : mem) (p v : Z) :
  cell_ok (width_C_TYPE w) m p ->
  in_range (width_C_TYPE w) v ->
  forall f, f = atomic_set_ (width_TYPE w) \/ f = atomic_clear_ (width_TYPE w) \/
            f = atomic_add_ (width_TYPE w) \/ f = atomic_subtract_ (width_TYPE w) ->
  exists m' : mem,
    f p v m = Some (tt, m') /\
    cell_ok (width_C_TYPE w) m' p /\
    (forall l : Z, l <> p -> m' !! l = m !! l) /\
    dom m' = dom m.
Proof.
  intros (x & H & Hx) Hv f Hf.
  assert (Hb : 0 < 2 ^ bits (width_C_TYPE w))
    by (pose proof (bits_pos (width_C_TYPE w)); lia).
  assert (Hgen : forall y, in_range (width_C_TYPE w) y ->
            cell_ok (width_C_TYPE w) (<[p := Vint y]> m) p /\
            (forall l : Z, l <> p -> <[p := Vint y]> m !! l = m !! l) /\
            dom (<[p := Vint y]> m) = dom m).
  { intros y Hy. split; [|split].
    - exists y. split; [apply lookup_insert_eq | exact Hy].
    - intros l Hl. apply lookup_insert_ne. congruence.
    - rewrite dom_insert_L.
      apply subseteq_union_1_L, singleton_subseteq_l, elem_of_dom. eauto. }
  destruct Hf as [-> | [-> | [-> | ->]]].
  - exists (<[p := Vint (Z.lor x v)]> m). split; [apply set_run; assumption|].
    apply Hgen, lor_in_range; assumption.
  - exists (<[p := Vint (Z.ldiff x v)]> m). split; [apply clear_run; assumption|].
    apply Hgen, ldiff_in_range; assumption.
  - eexists. split; [apply add_run; exact H|].
    apply Hgen. apply Z.mod_pos_bound, Hb.
  - eexists. split; [apply subtract_run; exact H|].
    apply Hgen. apply Z.mod_pos_bound, Hb.
Qed.

Lemma atomic_op_keeps_cell_ok_witness :
  exists m' : mem,
    atomic_clear_ char 8 201 {[ 8 := Vint 200; 16 := Vint 7 ]} = Some (tt, m') /\
    cell_ok uint8_t m' 8 /\
    (forall l : Z, l <> 8 -> m' !! l = ({[ 8 := Vint 200; 16 := Vint 7 ]} : mem) !! l) /\
    dom m' = dom ({[ 8 := Vint 200; 16 := Vint 7 ]} : mem).
Proof.
  refine (atomic_op_keeps_cell_ok W8 {[ 8 := Vint 200; 16 := Vint 7 ]} 8 201 _ _
            (atomic_clear_ char) _).
  - exists 200. split; [reflexivity | unfold in_range; simpl; lia].
  - unfold in_range. simpl. lia.
  - right. left. reflexivity.
Defined.

(** *** Fetch-and-add in sequence *)

Lemma fetchadd_int_run (m : mem) (p x v : Z) :
  m !! p = Some (Vint x) ->
  atomic_fetchadd_int p v m = Some (x, <[p := Vint ((x + v) mod 2 ^ 32)]> m).
Proof.
  intros H. unfold atomic_fetchadd_int, __atomic_fetch_add.
  rewrite (atomic_fetch_op_run _ _ _ _ _ _ _ H). reflexivity.
Qed.

Lemma fetchadd_all_run (p : Z) (vs : list Z) :
  forall (m : mem) (x : Z),
  m !! p = Some (Vint x) -> 0 <= x < 2 ^ 32 ->
  fetchadd_all p vs m
  = Some (running_totals x vs, <[p := Vint ((x + foldr Z.add 0 vs) mod 2 ^ 32)]> m).
Proof.
  induction vs as [|v vs IH]; intros m x H Hx; simpl.
  - unfold ret. rewrite Z.add_0_r, Z.mod_small by exact Hx.
    rewrite insert_id by exact H. reflexivity.
  - apply (seq_run _ _ _ _ _ _ (fetchadd_int_run m p x v H)).
    rewrite (bind_Some _ _ _ _ _
               (IH _ ((x + v) mod 2 ^ 32) (lookup_insert_eq _ _ _)
                   (Z.mod_pos_bound (x + v) (2 ^ 32) ltac:(lia)))).
    unfold ret. rewrite insert_insert_eq, Zplus_mod_idemp_l, Z.add_assoc.
    reflexivity.
Qed.

Lemma sum_permutation (vs vs' : list Z) :
  Permutation vs vs' -> foldr Z.add 0 vs = foldr Z.add 0 vs'.
Proof.
  induction 1; simpl; lia.
Qed.

(** X7. No update is lost, in whatever order the calls take effect: after
    any run of [atomic_fetchadd_int] calls on [*p], [*p] holds the initial
    value plus the sum of all operands, modulo [2^32]; two runs with the same
    operands in different orders end in the same memory; and the calls
    return the running totals. *)
Theorem fetchadd_no_lost_update (m : mem) (p x : Z) (vs vs' : list Z) :
  m !! p = Some (Vint x) ->
  in_range u_int x ->
  Permutation vs vs' ->
  exists m' : mem,
    fetchadd_all p vs m = Some (running_totals x vs, m') /\
    fetchadd_all p vs' m = Some (running_totals x vs', m') /\
    m' !! p = Some (Vint ((x + foldr Z.add 0 vs) mod 2 ^ 32)) /\
    (forall l : Z, l <> p -> m' !! l = m !! l).
Proof.
  intros H Hx Hp. unfold in_range in Hx. simpl in Hx.
  exists (<[p := Vint ((x + foldr Z.add 0 vs) mod 2 ^ 32)]> m).
  split; [apply fetchadd_all_run; assumption|]. split; [|split].
  - rewrite (sum_permutation _ _ Hp). apply fetchadd_all_run; assumption.
  - apply lookup_insert_eq.
  - intros l Hl. apply lookup_insert_ne. congruence.
Qed.

Lemma fetchadd_no_lost_update_witness :
  exists m' : mem,
    fetchadd_all 8 [1; 4294967295; 5] {[ 8 := Vint 10 ]}
      = Some (running_totals 10 [1; 4294967295; 5], m') /\
    fetchadd_all 8 [5; 1; 4294967295] {[ 8 := Vint 10 ]}
      = Some (running_totals 10 [5; 1; 4294967295], m') /\
    m' !! 8 = Some (Vint ((10 + foldr Z.add 0 [1; 4294967295; 5]) mod 2 ^ 32)) /\
    (forall l : Z, l <> 8 -> m' !! l = ({[ 8 := Vint 10 ]} : mem) !! l).
Proof.
  apply (fetchadd_no_lost_update {[ 8 := Vint 10 ]} 8 10
           [1; 4294967295; 5] [5; 1; 4294967295]).
  - reflexivity.
  - unfold in_range. simpl. lia.
  - symmetry. apply (Permutation_cons_append [1; 4294967295] 5).
Defined.

Lemma mod_shift_neq (y d : Z) :
  0 <= y < 2 ^ 32 -> 0 < d < 2 ^ 32 -> (y + d) mod 2 ^ 32 <> y.
Proof.
  intros Hy Hd. destruct (Z_lt_le_dec (y + d) (2 ^ 32)) as [Hlt | Hge].
  - rewrite Z.mod_small by lia. lia.
  - replace (y + d) with (y + d - 2 ^ 32 + 1 * 2 ^ 32) by lia.
    rewrite Z_mod_plus_full, Z.mod_small by lia. lia.
Qed.

Lemma running_totals_ones_elem (n : nat) :
  forall y z : Z, 0 <= y < 2 ^ 32 ->
  z ∈ running_totals y (replicate n 1) ->
  exists j : Z, 0 <= j < Z.of_nat n /\ z = (y + j) mod 2 ^ 32.
Proof.
  induction n as [|n IH]; intros y z Hy Hz; simpl in Hz.
  - apply elem_of_nil in Hz. contradiction.
  - apply elem_of_cons in Hz. destruct Hz as [-> | Hz].
    + exists 0. split; [lia|]. rewrite Z.add_0_r, Z.mod_small by exact Hy. reflexivity.
    + destruct (IH _ _ (Z.mod_pos_bound (y + 1) (2 ^ 32) ltac:(lia)) Hz) as (j & Hj & ->).
      exists (1 + j). split; [lia|].
      rewrite Zplus_mod_idemp_l. f_equal. lia.
Qed.

(** X8. Tickets are unique: up to [2^32] consecutive calls
    [atomic_fetchadd_int (p, 1)] return pairwise different values, one per
    call. *)
Theorem fetchadd_tickets_distinct (m : mem) (p x : Z) (n : nat) :
  m !! p = Some (Vint x) ->
  in_range u_int x ->
  Z.of_nat n <= 2 ^ 32 ->
  exists (tickets : list Z) (m' : mem),
    fetchadd_all p (replicate n 1) m = Some (tickets, m') /\
    length tickets = n /\
    NoDup tickets.
Proof.
  intros H Hx Hn. change (0 <= x < 2 ^ 32) in Hx.
  eexists _, _. split; [exact (fetchadd_all_run p _ m x H Hx)|].
  clear H m. revert x Hx. induction n as [|n IH]; intros x Hx; simpl.
  - split; [reflexivity | constructor].
  - assert (Hx' : 0 <= (x + 1) mod 2 ^ 32 < 2 ^ 32) by (apply Z.mod_pos_bound; lia).
    destruct (IH ltac:(lia) _ Hx') as [Hlen Hnd].
    split; [f_equal; exact Hlen|].
    constructor; [|exact Hnd].
    intros Hin.
    destruct (running_totals_ones_elem _ _ _ Hx' Hin) as (j & Hj & E).
    rewrite Zplus_mod_idemp_l in E.
    apply (mod_shift_neq x (1 + j)); [exact Hx | lia |].
    rewrite Z.add_assoc. symmetry. exact E.
Qed.

Lemma fetchadd_tickets_distinct_witness :
  exists (tickets : list Z) (m' : mem),
    fetchadd_all 8 (replicate 4 1) {[ 8 := Vint 4294967294 ]} = Some (tickets, m') /\
    length tickets = 4%nat /\
    NoDup tickets.
Proof.
  apply (fetchadd_tickets_distinct {[ 8 := Vint 4294967294 ]} 8 4294967294 4).
  - reflexivity.
  - unfold in_range. simpl. lia.
  - lia.
Defined.

(** X9. [atomic_fetchadd_int] followed by [atomic_fetchsubtract_int] with the
    same operand (a value of both parameter types) restores [*p]; the first
    call returns the initial value and the second the incremented one. *)
Theorem fetchadd_fetchsubtract_round_trip (m : mem) (p x v : Z) :
  m !! p = Some (Vint x) ->
  in_range u_int x ->
  0 <= v < 2 ^ 31 ->
  (let* a := atomic_fetchadd_int p v in
   let* b := atomic_fetchsubtract_int p v in
   ret (a, b)) m
  = Some ((x, (x + v) mod 2 ^ 32), m).
Proof.
  intros H Hx Hv. change (0 <= x < 2 ^ 32) in Hx.
  apply (seq_run _ _ _ _ _ _ (fetchadd_int_run m p x v H)).
  apply (seq_run _ _ _ _ _ _
           (fetchsubtract_int_in_range _ p _ v (lookup_insert_eq _ _ _) ltac:(lia))).
  unfold ret. rewrite insert_insert_eq, Zminus_mod_idemp_l.
  replace (x + v - v) with x by lia.
  rewrite (Z.mod_small x) by exact Hx. rewrite insert_id by exact H. reflexivity.
Qed.

Lemma fetchadd_fetchsubtract_round_trip_witness :
  (let* a := atomic_fetchadd_int 8 5 in
   let* b := atomic_fetchsubtract_int 8 5 in
   ret (a, b)) {[ 8 := Vint 4294967295 ]}
  = Some ((4294967295, (4294967295 + 5) mod 2 ^ 32), {[ 8 := Vint 4294967295 ]}).
Proof.
  apply (fetchadd_fetchsubtract_round_trip {[ 8 := Vint 4294967295 ]} 8 4294967295 5).
  - reflexivity.
  - unfold in_range. simpl. lia.
  - lia.
Defined.

(** X10. Subtracting a negative operand is adding: for [0 <= k < 2^31],
    [atomic_fetchsubtract_int (p, -k)] is [atomic_fetchadd_int (p, k)], in
    every memory (same value returned, same effect, same fault). *)
Theorem fetchsubtract_negative_is_fetchadd (m : mem) (p k : Z) :
  0 <= k < 2 ^ 31 ->
  atomic_fetchsubtract_int p (- k) m = atomic_fetchadd_int p k m.
Proof.
  intros Hk. unfold atomic_fetchsubtract_int.
  rewrite (c_neg_int_exact (- k)) by lia. rewrite Z.opp_involutive.
  unfold atomic_fetchadd_int, __atomic_fetch_add, atomic_fetch_op, bind, load.
  destruct (m !! p) as [[|x]|] eqn:E; try reflexivity.
  unfold store. rewrite E. unfold cast, bits.
  rewrite Zplus_mod_idemp_r. reflexivity.
Qed.

Lemma fetchsubtract_negative_is_fetchadd_witness :
  atomic_fetchsubtract_int 8 (- (2 ^ 31 - 1)) {[ 8 := Vint 3 ]}
  = atomic_fetchadd_int 8 (2 ^ 31 - 1) {[ 8 := Vint 3 ]}.
Proof.
  apply (fetchsubtract_negative_is_fetchadd {[ 8 := Vint 3 ]} 8 (2 ^ 31 - 1)).
  lia.
Defined.

(** X11. The void and the fetching variants agree on memory: for every
    operand, [atomic_add_int] leaves memory as [atomic_fetchadd_int] does;
    for every operand that is a value of both [u_int] and [int]
    ([0 <= v < 2^31]), [atomic_subtract_int] leaves memory as
    [atomic_fetchsubtract_int] does; the fetching variants return the value
    [*p] held in addition. *)
Theorem void_and_fetch_variants_agree (m : mem) (p x v : Z) :
  m !! p = Some (Vint x) ->
  (exists m1 : mem,
     atomic_add_int p v m = Some (tt, m1) /\
     atomic_fetchadd_int p v m = Some (x, m1)) /\
  (0 <= v < 2 ^ 31 ->
   exists m2 : mem,
     atomic_subtract_int p v m = Some (tt, m2) /\
     atomic_fetchsubtract_int p v m = Some (x, m2)).
Proof.
  intros H. split.
  - eexists. split; [exact (add_run W32 m p x v H)|].
    exact (fetchadd_int_run m p x v H).
  - intros Hv. eexists. split; [exact (subtract_run W32 m p x v H)|].
    exact (fetchsubtract_int_in_range m p x v H ltac:(lia)).
Qed.

Lemma void_and_fetch_variants_agree_witness :
  (exists m1 : mem,
     atomic_add_int 8 7 {[ 8 := Vint 3 ]} = Some (tt, m1) /\
     atomic_fetchadd_int 8 7 {[ 8 := Vint 3 ]} = Some (3, m1)) /\
  (exists m2 : mem,
     atomic_subtract_int 8 7 {[ 8 := Vint 3 ]} = Some (tt, m2) /\
     atomic_fetchsubtract_int 8 7 {[ 8 := Vint 3 ]} = Some (3, m2)).
Proof.
  assert (H : ({[ 8 := Vint 3 ]} : mem) !! 8 = Some (Vint 3)) by reflexivity.
  destruct (void_and_fetch_variants_agree {[ 8 := Vint 3 ]} 8 3 7 H)
    as [Hadd Hsub].
  split; [exact Hadd | apply Hsub; lia].
Defined.

(** *** Compare-and-swap and read-and-clear in sequence *)

(** X12. Of two identical attempts in a row, only the first can win: if [*dst]
    holds [exp] and [src] differs from [exp], the first
    [atomic_cmpset (dst, exp, src)] returns 1, the second returns 0, and
    [*dst] holds [src]; for [atomic_cmpset_int] and [atomic_cmpset_long]. *)
Theorem cmpset_second_attempt_fails (m : mem) (dst exp src : Z) :
  m !! dst = Some (Vint exp) ->
  src <> exp ->
  forall f, f = atomic_cmpset_int \/ f = atomic_cmpset_long ->
  (let* a := f dst exp src in
   let* b := f dst exp src in
   ret (a, b)) m
  = Some ((1, 0), <[dst := Vint src]> m).
Proof.
  intros H Hne f Hf.
  assert (Hrun : forall (m0 : mem) (x : Z), m0 !! dst = Some (Vint x) ->
            f dst exp src m0 =
            Some (if x =? exp then (1, <[dst := Vint src]> m0) else (0, m0))).
  { intros m0 x H0. destruct Hf as [-> | ->]; apply cmpset_body_run, H0. }
  pose proof (Hrun m exp H) as H1. rewrite Z.eqb_refl in H1.
  apply (seq_run _ _ _ _ _ _ H1).
  pose proof (Hrun _ src (lookup_insert_eq m dst (Vint src))) as H2.
  destruct (Z.eqb_spec src exp) as [E | _]; [contradiction|].
  apply (seq_run _ _ _ _ _ _ H2). reflexivity.
Qed.

Lemma cmpset_second_attempt_fails_witness :
  (let* a := atomic_cmpset_long 8 0 1 in
   let* b := atomic_cmpset_long 8 0 1 in
   ret (a, b)) {[ 8 := Vint 0 ]}
  = Some ((1, 0), <[8 := Vint 1]> {[ 8 := Vint 0 ]}).
Proof.
  refine (cmpset_second_attempt_fails {[ 8 := Vint 0 ]} 8 0 1 _ _ atomic_cmpset_long _).
  - reflexivity.
  - lia.
  - right. reflexivity.
Defined.

(** X13. Read-and-clear hands a value out once: of two calls in a row the
    first returns what [*addr] held and the second returns 0; for
    [atomic_readandclear_int] and [atomic_readandclear_long]. *)
Theorem readandclear_drains_once (m : mem) (addr x : Z) :
  m !! addr = Some (Vint x) ->
  forall f, f = atomic_readandclear_int \/ f = atomic_readandclear_long ->
  (let* a := f addr in
   let* b := f addr in
   ret (a, b)) m
  = Some ((x, 0), <[addr := Vint 0]> m).
Proof.
  intros H f Hf.
  assert (Hrun : forall (m0 : mem) (y : Z), m0 !! addr = Some (Vint y) ->
            f addr m0 = Some (y, <[addr := Vint 0]> m0)).
  { intros m0 y H0. destruct Hf as [-> | ->]; apply atomic_exchange_n_run, H0. }
  apply (seq_run _ _ _ _ _ _ (Hrun m x H)).
  apply (seq_run _ _ _ _ _ _ (Hrun _ 0 (lookup_insert_eq _ _ _))).
  unfold ret. rewrite insert_insert_eq. reflexivity.
Qed.

Lemma readandclear_drains_once_witness :
  (let* a := atomic_readandclear_int 8 in
   let* b := atomic_readandclear_int 8 in
   ret (a, b)) {[ 8 := Vint 42 ]}
  = Some ((42, 0), <[8 := Vint 0]> {[ 8 := Vint 42 ]}).
Proof.
  refine (readandclear_drains_once {[ 8 := Vint 42 ]} 8 42 _ atomic_readandclear_int _).
  - reflexivity.
  - left. reflexivity.
Defined.

(** X14. A load-acquire followed by a compare-and-swap from the value loaded
    to that value plus [v] succeeds, when nothing intervenes, and has the
    effect of [atomic_fetchadd_int (p, v)]: the same value is obtained and
    memory ends the same. *)
Theorem load_cmpset_is_fetchadd (m : mem) (p x v : Z) :
  m !! p = Some (Vint x) ->
  exists m' : mem,
    (let* old := atomic_load_acq_int p in
     let* ok := atomic_cmpset_int p old (cast u_int (old + v)) in
     ret (old, ok)) m
    = Some ((x, 1), m') /\
    atomic_fetchadd_int p v m = Some (x, m').
Proof.
  intros H. exists (<[p := Vint ((x + v) mod 2 ^ 32)]> m).
  split; [|exact (fetchadd_int_run m p x v H)].
  apply (seq_run _ _ _ _ _ _ (ATOMIC_LOAD_ACQ_run int uint32_t m p x H)).
  pose proof (cmpset_body_run u_int m p x x (cast u_int (x + v)) H) as Hc.
  rewrite Z.eqb_refl in Hc.
  apply (seq_run _ _ _ _ _ _ Hc). reflexivity.
Qed.

Lemma load_cmpset_is_fetchadd_witness :
  exists m' : mem,
    (let* old := atomic_load_acq_int 8 in
     let* ok := atomic_cmpset_int 8 old (cast u_int (old + 2)) in
     ret (old, ok)) {[ 8 := Vint 4294967295 ]}
    = Some ((4294967295, 1), m') /\
    atomic_fetchadd_int 8 2 {[ 8 := Vint 4294967295 ]} = Some (4294967295, m').
Proof.
  apply (load_cmpset_is_fetchadd {[ 8 := Vint 4294967295 ]} 8 4294967295 2).
  reflexivity.
Defined.

(** *** The table of names, as a whole *)

Lemma macro_list_checked :
  Forall (fun kv : string * string =>
            defined kv.1 = true /\ functions !! kv.1 = None /\
            macros !! expand 1 kv.2 = None) macro_list.
Proof.
  unfold macro_list.
  repeat (constructor; [split; [|split]; vm_compute; reflexivity|]).
  constructor.
Qed.

Lemma macros_lookup_in_list (name r : string) :
  macros !! name = Some r -> (name, r) ∈ macro_list.
Proof. apply elem_of_list_to_map_2. Qed.

Lemma expand_fix (n : nat) (x : string) : macros !! x = None -> expand n x = x.
Proof. intros H. destruct n; cbn [expand]; [|rewrite H]; reflexivity. Qed.

Lemma expand_more (n k : nat) :
  forall x : string, macros !! expand n x = None -> expand (n + k) x = expand n x.
Proof.
  induction n as [|n IH]; intros x H; cbn [expand Nat.add] in *.
  - apply expand_fix, H.
  - destruct (macros !! x) as [r|]; [apply IH, H | reflexivity].
Qed.

(** X15. Every alias of the header leads somewhere: each of the 120 macro
    names of lines 171-302 denotes a function the header defines; no macro
    name is also the name of a function; and no macro name is defined
    twice. *)
Theorem every_alias_resolves :
  Forall (fun kv : string * string =>
            defined kv.1 = true /\ functions !! kv.1 = None) macro_list /\
  NoDup macro_list.*1 /\
  length macro_list = 120%nat.
Proof.
  split; [|split].
  - eapply Forall_impl; [apply macro_list_checked|].
    intros kv (H1 & H2 & _). auto.
  - apply (bool_decide_unpack (NoDup macro_list.*1)). vm_compute. exact I.
  - reflexivity.
Qed.

(** X16. Macro replacement always runs to completion: for every identifier
    whatsoever, what [preprocess] returns is not a macro name, so expanding
    again changes nothing; and the name of a function is left alone. *)
Theorem preprocess_complete (name : string) :
  macros !! preprocess name = None /\
  preprocess (preprocess name) = preprocess name /\
  (is_Some (functions !! name) -> preprocess name = name).
Proof.
  assert (Hcases : (macros !! name = None /\ preprocess name = name) \/
                   (exists r, macros !! name = Some r /\
                              functions !! name = None /\
                              macros !! preprocess name = None)).
  { destruct (macros !! name) as [r|] eqn:E.
    - right. exists r. split; [reflexivity|].
      pose proof (macros_lookup_in_list _ _ E) as Hin.
      pose proof (proj1 (Forall_forall _ _) macro_list_checked _ Hin)
        as (_ & Hf & Hr). cbn [fst snd] in Hf, Hr.
      split; [exact Hf|].
      unfold preprocess. change (length macro_list) with (S (1 + 118)).
      cbn [expand]. rewrite E. rewrite (expand_more 1 118 r Hr). exact Hr.
    - left. split; [reflexivity|]. apply expand_fix, E. }
  destruct Hcases as [[Hm Hp] | (r & Hr & Hf & Hm)].
  - rewrite Hp. split; [exact Hm|]. split; [exact Hp | reflexivity].
  - split; [exact Hm|]. split; [apply expand_fix, Hm|].
    intros [f Hsome]. rewrite Hf in Hsome. discriminate.
Qed.

Lemma entry_eq_by_names (a b : string) :
  preprocess a = preprocess b \/
  (functions !! preprocess a = None /\ functions !! preprocess b = None) ->
  entry a = entry b.
Proof.
  unfold entry. intros [-> | [-> ->]]; reflexivity.
Qed.

(** X17. A width in a name stands for the type of that width, and [ptr] for
    [long]: for every operation and ordering suffix, the names ending in
    [_8], [_16], [_32], [_64] denote what the names ending in [_char],
    [_short], [_int], [_long] denote (a function, or nothing), and the name
    ending in [_ptr] what the one ending in [_long] denotes. *)
Theorem width_names_denote_type_names (o : operation) (s : ordering) (w : width) :
  entry (entry_name o s (width_token w)) = entry (entry_name o s (width_type_token w)) /\
  entry (entry_name o s tok_ptr) = entry (entry_name o s tok_long).
Proof.
  split.
  - destruct o, s, w; apply entry_eq_by_names;
      first [ left; vm_compute; reflexivity
            | right; split; vm_compute; reflexivity ].
  - destruct o, s; apply entry_eq_by_names;
      first [ left; vm_compute; reflexivity
            | right; split; vm_compute; reflexivity ].
Qed.

Lemma family_entries (s : ordering) (w : width) :
  entry (entry_name op_set s (width_token w))
    = Some (F_void_p_v (atomic_set_ (width_TYPE w))) /\
  entry (entry_name op_clear s (width_token w))
    = Some (F_void_p_v (atomic_clear_ (width_TYPE w))) /\
  entry (entry_name op_add s (width_token w))
    = Some (F_void_p_v (atomic_add_ (width_TYPE w))) /\
  entry (entry_name op_subtract s (width_token w))
    = Some (F_void_p_v (atomic_subtract_ (width_TYPE w))).
Proof.
  unfold entry.
  destruct s, w; repeat split;
    match goal with
    | |- functions !! preprocess ?n = _ =>
        let n' := eval vm_compute in (preprocess n) in
        change (preprocess n) with n'
    end; reflexivity.
Qed.

(** X18. The number in a name is the modulus, whatever the ordering suffix:
    a call [atomic_add_<n>], [atomic_add_acq_<n>] or [atomic_add_rel_<n>]
    with [n] one of 8, 16, 32, 64 leaves [(x + v) mod 2^n] in [*p], the
    [subtract] names leave [(x - v) mod 2^n], the [set] names [x | v] and the
    [clear] names [x & ~v]; none returns a value. *)
Theorem call_by_width_name (s : ordering) (w : width) (m : mem) (p x v : Z) :
  m !! p = Some (Vint x) ->
  in_range (width_C_TYPE w) x ->
  in_range (width_C_TYPE w) v ->
  call (entry_name op_add s (width_token w)) [p; v] m
    = Some (None, <[p := Vint ((x + v) mod 2 ^ bits (width_C_TYPE w))]> m) /\
  call (entry_name op_subtract s (width_token w)) [p; v] m
    = Some (None, <[p := Vint ((x - v) mod 2 ^ bits (width_C_TYPE w))]> m) /\
  call (entry_name op_set s (width_token w)) [p; v] m
    = Some (None, <[p := Vint (Z.lor x v)]> m) /\
  call (entry_name op_clear s (width_token w)) [p; v] m
    = Some (None, <[p := Vint (Z.ldiff x v)]> m).
Proof.
  intros H Hx Hv.
  destruct (family_entries s w) as (Eset & Eclear & Eadd & Esub).
  unfold call. rewrite Eset, Eclear, Eadd, Esub.
  repeat split.
  - apply (seq_run _ _ _ _ _ _ (add_run w m p x v H)). reflexivity.
  - apply (seq_run _ _ _ _ _ _ (subtract_run w m p x v H)). reflexivity.
  - apply (seq_run _ _ _ _ _ _ (set_run w m p x v H Hx Hv)). reflexivity.
  - apply (seq_run _ _ _ _ _ _ (clear_run w m p x v H Hx)). reflexivity.
Qed.

Lemma call_by_width_name_witness :
  call (entry_name op_add rel tok_16) [8; 1] {[ 8 := Vint 65535 ]}
    = Some (None, <[8 := Vint ((65535 + 1) mod 2 ^ bits uint16_t)]> {[ 8 := Vint 65535 ]}) /\
  call (entry_name op_subtract rel tok_16) [8; 1] {[ 8 := Vint 65535 ]}
    = Some (None, <[8 := Vint ((65535 - 1) mod 2 ^ bits uint16_t)]> {[ 8 := Vint 65535 ]}) /\
  call (entry_name op_set rel tok_16) [8; 1] {[ 8 := Vint 65535 ]}
    = Some (None, <[8 := Vint (Z.lor 65535 1)]> {[ 8 := Vint 65535 ]}) /\
  call (entry_name op_clear rel tok_16) [8; 1] {[ 8 := Vint 65535 ]}
    = Some (None, <[8 := Vint (Z.ldiff 65535 1)]> {[ 8 := Vint 65535 ]}).
Proof.
  apply (call_by_width_name rel W16 {[ 8 := Vint 65535 ]} 8 65535 1).
  - reflexivity.
  - unfold in_range. simpl. lia.
  - unfold in_range. simpl. lia.
Defined.

End AtomicMore.

Module DigestMore.
Import Digest DigestSpec.

Lemma write_bytes_dom (bs : list Z) :
  forall (m m' : gmap Z Z) (a : Z),
  write_bytes m a bs = Some m' -> dom m' = dom m.
Proof.
  induction bs as [|b bs IH]; intros m m' a H; simpl in H.
  - injection H as <-. reflexivity.
  - destruct (m !! a) eqn:Ea; [|discriminate].
    rewrite (IH _ _ _ H), dom_insert_L.
    apply subseteq_union_1_L, singleton_subseteq_l, elem_of_dom. eauto.
Qed.

(** Storing what is already there changes nothing. *)
Lemma write_bytes_same (bs : list Z) :
  forall (m : gmap Z Z) (a : Z),
  read_bytes m a (length bs) = Some bs -> write_bytes m a bs = Some m.
Proof.
  induction bs as [|b bs IH]; intros m a H; simpl in H |- *; [reflexivity|].
  destruct (m !! a) as [b'|] eqn:Ea; [|discriminate].
  destruct (read_bytes m (a + 1) (length bs)) as [bs'|] eqn:Er; [|discriminate].
  injection H as -> ->.
  rewrite insert_id by exact Ea. apply IH, Er.
Qed.

(** X19. [SHA1_Digest] writes the 20 bytes of the output buffer and nothing
    else: no byte outside [digest, digest + 20) changes and nothing is
    mapped or unmapped; the buffers may overlap, and when they do not, the
    input is still there after the call. *)
Theorem SHA1_Digest_writes_only_digest
    (data_ : Z) (len : nat) (digest : Z) (s : state) (input old : list Z) :
  stack_ok s ->
  read_bytes (heap s) data_ len = Some input ->
  read_bytes (heap s) digest SHA_DIGEST_LENGTH = Some old ->
  exists s' : state,
    SHA1_Digest data_ len digest s = Some s' /\
    (forall k : Z, k < digest \/ digest + 20 <= k -> heap s' !! k = heap s !! k) /\
    dom (heap s') = dom (heap s) /\
    (digest + 20 <= data_ \/ data_ + Z.of_nat len <= digest ->
     read_bytes (heap s') data_ len = Some input).
Proof.
  intros Hs Hin Hout.
  assert (Hw : exists heap', write_bytes (heap s) digest (sha1 input) = Some heap').
  { eapply write_bytes_Some. rewrite length_sha1. exact Hout. }
  destruct Hw as [heap' Hw].
  exists (mkstate heap' (final_ctx input)).
  rewrite SHA1_Digest_unfold by exact Hs. rewrite Hin, Hw. cbn [heap].
  assert (Hframe : forall k : Z, k < digest \/ digest + 20 <= k ->
                                 heap' !! k = heap s !! k).
  { intros k Hk. apply (write_bytes_frame _ _ _ _ Hw).
    rewrite length_sha1. unfold SHA_DIGEST_LENGTH. lia. }
  split; [reflexivity|]. split; [exact Hframe|]. split.
  - apply (write_bytes_dom _ _ _ _ Hw).
  - intros Hdis. rewrite <- Hin. apply read_bytes_ext.
    intros i Hi. apply Hframe. lia.
Qed.

Lemma SHA1_Digest_writes_only_digest_witness :
  let s := mkstate (bytes_at 100 (replicate 20 0xff) ∪ bytes_at 300 [0x61; 0x62; 0x63])
                   zero_ctx in
  exists s' : state,
    SHA1_Digest 300 3 100 s = Some s' /\
    (forall k : Z, k < 100 \/ 100 + 20 <= k -> heap s' !! k = heap s !! k) /\
    dom (heap s') = dom (heap s) /\
    (100 + 20 <= 300 \/ 300 + Z.of_nat 3 <= 100 ->
     read_bytes (heap s') 300 3 = Some [0x61; 0x62; 0x63]).
Proof.
  intros s.
  apply (SHA1_Digest_writes_only_digest 300 3 100 s [0x61; 0x62; 0x63]
           (replicate 20 0xff)).
  - reflexivity.
  - vm_compute. reflexivity.
  - vm_compute. reflexivity.
Defined.

(** X20. Calling again changes nothing: when the input and output buffers do
    not overlap, a second [SHA1_Digest] call with the same arguments ends in
    the very state the first call ended in. *)
Theorem SHA1_Digest_twice
    (data_ : Z) (len : nat) (digest : Z) (s : state) (input old : list Z) :
  stack_ok s ->
  read_bytes (heap s) data_ len = Some input ->
  read_bytes (heap s) digest SHA_DIGEST_LENGTH = Some old ->
  digest + 20 <= data_ \/ data_ + Z.of_nat len <= digest ->
  exists s' : state,
    run [mkcall data_ len digest] s = Some s' /\
    run [mkcall data_ len digest; mkcall data_ len digest] s = Some s'.
Proof.
  intros Hs Hin Hout Hdis.
  destruct (SHA1_Digest_run _ _ _ _ _ _ Hs Hin Hout) as (s' & Hd & Hmd & Hframe).
  exists s'. cbn [run call_data call_len call_digest]. rewrite Hd.
  split; [reflexivity|].
  pose proof (SHA1_Digest_stack_ok _ _ _ _ _ Hs Hd) as Hs'.
  assert (Hin' : read_bytes (heap s') data_ len = Some input).
  { rewrite <- Hin. apply read_bytes_ext. intros i Hi. apply Hframe. lia. }
  rewrite SHA1_Digest_unfold by exact Hs'. rewrite Hin'.
  rewrite write_bytes_same by (rewrite length_sha1; exact Hmd).
  rewrite SHA1_Digest_unfold in Hd by exact Hs. rewrite Hin in Hd.
  destruct (write_bytes (heap s) digest (sha1 input)) as [h|]; [|discriminate].
  injection Hd as <-. reflexivity.
Qed.

Lemma SHA1_Digest_twice_witness :
  let s := mkstate (bytes_at 100 (replicate 20 0xff) ∪ bytes_at 300 [0x61; 0x62; 0x63])
                   zero_ctx in
  exists s' : state,
    run [mkcall 300 3 100] s = Some s' /\
    run [mkcall 300 3 100; mkcall 300 3 100] s = Some s'.
Proof.
  intros s.
  apply (SHA1_Digest_twice 300 3 100 s [0x61; 0x62; 0x63] (replicate 20 0xff)).
  - reflexivity.
  - vm_compute. reflexivity.
  - vm_compute. reflexivity.
  - lia.
Defined.

(** X21. Hashing in place: with the output buffer as the input
    ([data = digest], [len = 20]) each call replaces the 20 bytes by their
    digest, so [k] calls in a row leave the [k]-fold digest of what the
    buffer held; every call reads its whole input before it writes. *)
Theorem SHA1_Digest_chain (k : nat) :
  forall (d : Z) (s : state) (old : list Z),
  stack_ok s ->
  read_bytes (heap s) d SHA_DIGEST_LENGTH = Some old ->
  exists s' : state,
    run (replicate k (mkcall d SHA_DIGEST_LENGTH d)) s = Some s' /\
    read_bytes (heap s') d SHA_DIGEST_LENGTH = Some (Nat.iter k sha1 old).
Proof.
  induction k as [|k IH]; intros d s old Hs Hold.
  - exists s. split; [reflexivity | exact Hold].
  - destruct (SHA1_Digest_run _ _ _ _ _ _ Hs Hold Hold) as (s1 & Hd & Hmd & _).
    pose proof (SHA1_Digest_stack_ok _ _ _ _ _ Hs Hd) as Hs1.
    destruct (IH d s1 (sha1 old) Hs1 Hmd) as (s' & Hrun & Hread).
    exists s'. cbn [replicate run call_data call_len call_digest].
    rewrite Hd. split; [exact Hrun|].
    rewrite Hread. f_equal. symmetry. apply Nat.iter_succ_r.
Qed.

Lemma SHA1_Digest_chain_witness :
  let s := mkstate (bytes_at 100 (replicate 20 0)) zero_ctx in
  exists s' : state,
    run (replicate 2 (mkcall 100 SHA_DIGEST_LENGTH 100)) s = Some s' /\
    read_bytes (heap s') 100 SHA_DIGEST_LENGTH
    = Some (Nat.iter 2 sha1 (replicate 20 0)).
Proof.
  intros s.
  apply (SHA1_Digest_chain 2 100 s (replicate 20 0)).
  - reflexivity.
  - vm_compute. reflexivity.
Defined.

End DigestMore.
